(** * apple2disk: floppy_disk_image_file_to_serial_install

    A shallow embedding of [go/app/floppy_disk_image_file_to_serial_install.go]
    and the properties of its sector reordering pass and of its monitor
    command generators.

    Conventions of the embedding:
    - a Go [int] is a [Z] kept in the signed 64-bit range by [wrap] (the
      size of [int] on the 64-bit platforms the program is built for);
    - a Go [byte] is a [Byte.byte], a [[]byte] is a [list byte];
    - a run-time panic (index or slice out of range, or an explicit
      [panic(...)]) is the [Panicked] outcome of the [Result] type;
    - slices are mutated in place by the program; the functions below pass
      the updated slice on explicitly;
    - text reaches the outside through [fmt.Printf] (standard output) and
      [fmt.Fprintf(os.Stderr, ...)]; both are logged, in order, by the
      [Out] monad, and the log survives a panic. *)

From Stdlib Require Import ZArith List String Ascii Strings.Byte Lia Bool.
From Stdlib Require Import DecimalString DecimalPos DecimalZ.
From stdpp Require Import base list.

Local Open Scope Z_scope.

(** ** Go integers *)

Definition wrap (z : Z) : Z := (z + 2 ^ 63) mod 2 ^ 64 - 2 ^ 63.

Definition int_add (a b : Z) : Z := wrap (a + b).
Definition int_sub (a b : Z) : Z := wrap (a - b).
Definition int_mul (a b : Z) : Z := wrap (a * b).

Definition max_int : Z := 2 ^ 63 - 1.
Definition min_int : Z := - 2 ^ 63.

(** [len(s)] of a slice. *)
Definition len {A} (l : list A) : Z := Z.of_nat (length l).

(** ** Outcomes *)

Inductive panic : Type :=
| IndexOutOfRange
| SliceBoundsOutOfRange
| PanicMessage (msg : string).

Inductive Result (A : Type) : Type :=
| Ok (a : A)
| Panicked (p : panic)
| OutOfFuel.

Arguments Ok {A} a.
Arguments Panicked {A} p.
Arguments OutOfFuel {A}.

Definition bindR {A B} (m : Result A) (k : A -> Result B) : Result B :=
  match m with
  | Ok a => k a
  | Panicked p => Panicked p
  | OutOfFuel => OutOfFuel
  end.

Notation "'let*' x ':=' m 'in' k" := (bindR m (fun x => k))
  (at level 10, x pattern, m at level 100, k at level 200).

(** A [for cond { body }] loop over a loop state; [fuel] bounds the number of
    evaluations of the condition.  The loops of the reordering pass count up
    to a constant and are given one more evaluation than that constant; the
    loops of the two loaders step by [SEGMENT_SIZE], and their bound is a
    parameter. *)
Fixpoint while {S : Type} (fuel : nat) (cond : S -> bool) (body : S -> Result S)
    (s : S) : Result S :=
  match fuel with
  | O => OutOfFuel
  | Datatypes.S fuel' =>
      if cond s then let* s' := body s in while fuel' cond body s' else Ok s
  end.

(** ** Indexing *)

(** [l[i]] as an expression. *)
Definition getIndex (l : list byte) (i : Z) : Result byte :=
  if (i <? 0) || (len l <=? i) then Panicked IndexOutOfRange
  else match l !! Z.to_nat i with
       | Some b => Ok b
       | None => Panicked IndexOutOfRange
       end.

(** [l[i] = b] as a statement. *)
Definition setIndex (l : list byte) (i : Z) (b : byte) : Result (list byte) :=
  if (i <? 0) || (len l <=? i) then Panicked IndexOutOfRange
  else Ok (<[Z.to_nat i := b]> l).

(** [l[low:high]].  Go checks [0 <= low <= high <= cap(l)]; every slice
    expression of the program has [high <= len(l)], so the capacity beyond
    the length is never reached and the length is used as the bound. *)
Definition slice (l : list byte) (low high : Z) : Result (list byte) :=
  if (0 <=? low) && (low <=? high) && (high <=? len l)
  then Ok (take (Z.to_nat (high - low)) (drop (Z.to_nat low) l))
  else Panicked SliceBoundsOutOfRange.

(** ** The disk image *)

Definition diskImageStartPosOfTrackSector (trackNum sectorNum : Z) : Z :=
  int_add (int_mul 0x00001000 trackNum) (int_mul 0x00000100 sectorNum).

(** *** Sector shuffling *)

(** State of the copy loops: the slice written to, then the two positions
    (or position and counter) in the order of the source's declarations. *)
Definition readSectorBody (diskImage : list byte)
    (st : list byte * Z * Z) : Result (list byte * Z * Z) :=
  let '(sectorBuffer, sourceBytesPos, destinationPos) := st in
  let* b := getIndex diskImage sourceBytesPos in
  let* sectorBuffer := setIndex sectorBuffer destinationPos b in
  let destinationPos := int_add destinationPos 1 in
  let sourceBytesPos := int_add sourceBytesPos 1 in
  Ok (sectorBuffer, sourceBytesPos, destinationPos).

Definition readSectorDataToBuffer (sectorBuffer diskImage : list byte)
    (track sector : Z) : Result (list byte) :=
  let sourceBytesPos := diskImageStartPosOfTrackSector track sector in
  let destinationPos := 0 in
  let* st := while 257 (fun st => snd st <? 0x0100) (readSectorBody diskImage)
                   (sectorBuffer, sourceBytesPos, destinationPos) in
  Ok (fst (fst st)).

Definition writeSectorBody (sectorBuffer : list byte)
    (st : list byte * Z * Z) : Result (list byte * Z * Z) :=
  let '(diskImage, destinationBytesPos, sourcePos) := st in
  let* b := getIndex sectorBuffer sourcePos in
  let* diskImage := setIndex diskImage destinationBytesPos b in
  let sourcePos := int_add sourcePos 1 in
  let destinationBytesPos := int_add destinationBytesPos 1 in
  Ok (diskImage, destinationBytesPos, sourcePos).

Definition writeSectorDataFromBuffer (sectorBuffer diskImage : list byte)
    (track sector : Z) : Result (list byte) :=
  let destinationBytesPos := diskImageStartPosOfTrackSector track sector in
  let sourcePos := 0 in
  let* st := while 257 (fun st => snd st <? 0x0100) (writeSectorBody sectorBuffer)
                   (diskImage, destinationBytesPos, sourcePos) in
  Ok (fst (fst st)).

Definition copySectorBody
    (st : list byte * Z * Z * Z) : Result (list byte * Z * Z * Z) :=
  let '(diskImage, sourceBytesPos, destinationBytesPos, bytesCopied) := st in
  let* b := getIndex diskImage sourceBytesPos in
  let* diskImage := setIndex diskImage destinationBytesPos b in
  let destinationBytesPos := int_add destinationBytesPos 1 in
  let sourceBytesPos := int_add sourceBytesPos 1 in
  let bytesCopied := int_add bytesCopied 1 in
  Ok (diskImage, sourceBytesPos, destinationBytesPos, bytesCopied).

Definition copySectorDataInImage (diskImage : list byte)
    (track sourceSector destinationSector : Z) : Result (list byte) :=
  let sourceBytesPos := diskImageStartPosOfTrackSector track sourceSector in
  let destinationBytesPos := diskImageStartPosOfTrackSector track destinationSector in
  let bytesCopied := 0 in
  let* st := while 257 (fun st => snd st <? 0x0100) copySectorBody
                   (diskImage, sourceBytesPos, destinationBytesPos, bytesCopied) in
  Ok (fst (fst (fst st))).

(** The body of the track loop of [convertDiskImageFromProdosOrderToDos33Order]:
    seven rotation groups of three calls each, on the one scratch buffer. *)
Definition convertTrackBody
    (st : list byte * list byte * Z) : Result (list byte * list byte * Z) :=
  let '(sectorBuffer, diskImage, track) := st in
  (* rotation group 1 *)
  let* sectorBuffer := readSectorDataToBuffer sectorBuffer diskImage track 0x01 in
  let* diskImage := copySectorDataInImage diskImage track 0x0E 0x01 in
  let* diskImage := writeSectorDataFromBuffer sectorBuffer diskImage track 0x0E in
  (* rotation group 2 *)
  let* sectorBuffer := readSectorDataToBuffer sectorBuffer diskImage track 0x02 in
  let* diskImage := copySectorDataInImage diskImage track 0x0D 0x02 in
  let* diskImage := writeSectorDataFromBuffer sectorBuffer diskImage track 0x0D in
  (* rotation group 3 *)
  let* sectorBuffer := readSectorDataToBuffer sectorBuffer diskImage track 0x03 in
  let* diskImage := copySectorDataInImage diskImage track 0x0C 0x03 in
  let* diskImage := writeSectorDataFromBuffer sectorBuffer diskImage track 0x0C in
  (* rotation group 4 *)
  let* sectorBuffer := readSectorDataToBuffer sectorBuffer diskImage track 0x04 in
  let* diskImage := copySectorDataInImage diskImage track 0x0B 0x04 in
  let* diskImage := writeSectorDataFromBuffer sectorBuffer diskImage track 0x0B in
  (* rotation group 5 *)
  let* sectorBuffer := readSectorDataToBuffer sectorBuffer diskImage track 0x05 in
  let* diskImage := copySectorDataInImage diskImage track 0x0A 0x05 in
  let* diskImage := writeSectorDataFromBuffer sectorBuffer diskImage track 0x0A in
  (* rotation group 6 *)
  let* sectorBuffer := readSectorDataToBuffer sectorBuffer diskImage track 0x06 in
  let* diskImage := copySectorDataInImage diskImage track 0x09 0x06 in
  let* diskImage := writeSectorDataFromBuffer sectorBuffer diskImage track 0x09 in
  (* rotation group 7 *)
  let* sectorBuffer := readSectorDataToBuffer sectorBuffer diskImage track 0x07 in
  let* diskImage := copySectorDataInImage diskImage track 0x08 0x07 in
  let* diskImage := writeSectorDataFromBuffer sectorBuffer diskImage track 0x08 in
  Ok (sectorBuffer, diskImage, int_add track 1).

(** [var sectorBuffer [0x0100]byte]: 256 zero bytes. *)
Definition zeroSectorBuffer : list byte := repeat x00 256.

Definition convertDiskImageFromProdosOrderToDos33Order (diskImage : list byte)
    : Result (list byte) :=
  let sectorBuffer := zeroSectorBuffer in
  let* st := while 36 (fun st => snd st <? 0x23) convertTrackBody
                   (sectorBuffer, diskImage, 0x00) in
  Ok (snd (fst st)).

(** ** Standard output and standard error *)

Inductive event : Type :=
| Stdout (text : string)
| Stderr (text : string).

(** A computation that writes text and then returns, panics or is cut off;
    what it wrote before a panic stays written. *)
Definition Out (A : Type) : Type := (list event * Result A)%type.

Definition retO {A} (a : A) : Out A := ([], Ok a).

Definition bindO {A B} (m : Out A) (k : A -> Out B) : Out B :=
  match m with
  | (log, Ok a) => let (log', r) := k a in (log ++ log', r)
  | (log, Panicked p) => (log, Panicked p)
  | (log, OutOfFuel) => (log, OutOfFuel)
  end.

Definition liftR {A} (r : Result A) : Out A := ([], r).
Definition panicO {A} (p : panic) : Out A := ([], Panicked p).
Definition printf (text : string) : Out unit := ([Stdout text], Ok tt).
Definition fprintf_stderr (text : string) : Out unit := ([Stderr text], Ok tt).

Notation "x <- m ;; k" := (bindO m (fun x => k))
  (at level 100, m at next level, right associativity).
Notation "m ;; k" := (bindO m (fun _ => k))
  (at level 100, right associativity).

Fixpoint whileO {S : Type} (fuel : nat) (cond : S -> bool) (body : S -> Out S)
    (s : S) : Out S :=
  match fuel with
  | O => ([], OutOfFuel)
  | Datatypes.S fuel' =>
      if cond s then s' <- body s ;; whileO fuel' cond body s' else retO s
  end.

(** The text written to standard output, in order. *)
Fixpoint stdoutOf (log : list event) : list string :=
  match log with
  | [] => []
  | Stdout text :: log' => text :: stdoutOf log'
  | Stderr _ :: log' => stdoutOf log'
  end.

(** ** Formatting: the verbs of [fmt] the program uses *)

Definition CR : string := String (ascii_of_nat 13) EmptyString.
Definition LF : string := String (ascii_of_nat 10) EmptyString.

Definition upperHexDigit (d : Z) : ascii :=
  match d with
  | 0 => "0" | 1 => "1" | 2 => "2" | 3 => "3" | 4 => "4" | 5 => "5"
  | 6 => "6" | 7 => "7" | 8 => "8" | 9 => "9" | 10 => "A" | 11 => "B"
  | 12 => "C" | 13 => "D" | 14 => "E" | _ => "F"
  end%char.

(** The digit loop of [fmt]'s integer formatting in base 16: low digits are
    stored first, from the end of the buffer.  A 64-bit value has at most
    16 hexadecimal digits. *)
Fixpoint fmtHexDigits (rounds : nat) (u : Z) (buf : string) : string :=
  match rounds with
  | O => String (upperHexDigit u) buf
  | Datatypes.S rounds' =>
      if 16 <=? u
      then fmtHexDigits rounds' (u / 16) (String (upperHexDigit (u mod 16)) buf)
      else String (upperHexDigit u) buf
  end.

Fixpoint stringsRepeat (s : string) (count : nat) : string :=
  match count with
  | O => EmptyString
  | Datatypes.S count' => s ++ stringsRepeat s count'
  end.

(** [fmt.Sprintf("%02X", u)] for [u >= 0]: upper-case digits, padded on the
    left with zeros to a width of two. *)
Definition sprintf_02X (u : Z) : string :=
  let digits := fmtHexDigits 16 u EmptyString in
  stringsRepeat "0" (2 - String.length digits) ++ digits.

(** [fmt.Sprintf("%d", z)]. *)
Definition sprintf_d (z : Z) : string := NilZero.string_of_int (Z.to_int z).

Definition byteValue (b : byte) : Z := Z.of_N (Byte.to_N b).

(** ** The monitor command generators *)

Definition LINE_START_PAD_LENGTH : nat := 16.

Definition generateLineStartPad : string :=
  stringsRepeat " " LINE_START_PAD_LENGTH.

Definition generateMemoryAddress (targetStartAddress : Z) : string :=
  if targetStartAddress <? 0 then EmptyString
  else sprintf_02X targetStartAddress.

(** The [range] loop of [generateByteWriteGroupStringFromBytes]: [n] is
    [len(byteWriteGroup)], [i] the index of the head of [rest], [sb] the
    string builder ([WriteString] never fails). *)
Fixpoint byteWriteGroupRange (n i : Z) (rest : list byte) (sb : string) : string :=
  match rest with
  | [] => sb
  | b :: rest' =>
      let s := if i =? n - 1
               then sprintf_02X (byteValue b)
               else (sprintf_02X (byteValue b) ++ " ")%string in
      byteWriteGroupRange n (i + 1) rest' (sb ++ s)
  end.

Definition generateByteWriteGroupStringFromBytes (byteWriteGroup : list byte)
    : string :=
  byteWriteGroupRange (len byteWriteGroup) 0 byteWriteGroup EmptyString.

Definition writeCommandsToFillAppleMemorySegment (sourceBytes : list byte)
    (lineStartPad : string)
    (targetStartAddress sourceBytesStartPos writeByteCount : Z) : Out unit :=
  let memoryAddress := generateMemoryAddress targetStartAddress in
  let sourceBytesEndPos := int_add sourceBytesStartPos writeByteCount in
  let sourceBytesEndPos :=
    if sourceBytesEndPos >? len sourceBytes
    then len sourceBytes (* make sure we don't run off the end of sourceBytes *)
    else sourceBytesEndPos in
  byteWriteGroup <- liftR (slice sourceBytes sourceBytesStartPos sourceBytesEndPos) ;;
  let byteWriteGroupString := generateByteWriteGroupStringFromBytes byteWriteGroup in
  printf (lineStartPad ++ memoryAddress ++ ":" ++ byteWriteGroupString ++ CR).

(** Loop state of [writeCommandsToLoadDiskTrackToMemory], in the order of the
    declarations: [sourceBytesStartPos], [bytesWritten], [targetStartAddress],
    [firstCommand]. *)
Definition loadTrackBody (diskImage : list byte) (lineStartPad : string)
    (SEGMENT_SIZE : Z) (st : Z * Z * Z * bool) : Out (Z * Z * Z * bool) :=
  let '(sourceBytesStartPos, bytesWritten, targetStartAddress, firstCommand) := st in
  firstCommand <-
    (if firstCommand then
       (* ramp up the data stream with duplicated short writes *)
       writeCommandsToFillAppleMemorySegment diskImage lineStartPad targetStartAddress sourceBytesStartPos (int_sub SEGMENT_SIZE 8) ;;
       writeCommandsToFillAppleMemorySegment diskImage lineStartPad targetStartAddress sourceBytesStartPos (int_sub SEGMENT_SIZE 7) ;;
       writeCommandsToFillAppleMemorySegment diskImage lineStartPad targetStartAddress sourceBytesStartPos (int_sub SEGMENT_SIZE 6) ;;
       writeCommandsToFillAppleMemorySegment diskImage lineStartPad targetStartAddress sourceBytesStartPos (int_sub SEGMENT_SIZE 5) ;;
       writeCommandsToFillAppleMemorySegment diskImage lineStartPad targetStartAddress sourceBytesStartPos (int_sub SEGMENT_SIZE 4) ;;
       writeCommandsToFillAppleMemorySegment diskImage lineStartPad targetStartAddress sourceBytesStartPos (int_sub SEGMENT_SIZE 3) ;;
       writeCommandsToFillAppleMemorySegment diskImage lineStartPad targetStartAddress sourceBytesStartPos (int_sub SEGMENT_SIZE 2) ;;
       writeCommandsToFillAppleMemorySegment diskImage lineStartPad targetStartAddress sourceBytesStartPos (int_sub SEGMENT_SIZE 1) ;;
       writeCommandsToFillAppleMemorySegment diskImage lineStartPad targetStartAddress sourceBytesStartPos SEGMENT_SIZE ;;
       retO false
     else retO firstCommand) ;;
  writeCommandsToFillAppleMemorySegment diskImage lineStartPad targetStartAddress sourceBytesStartPos SEGMENT_SIZE ;;
  let targetStartAddress := int_add targetStartAddress SEGMENT_SIZE in
  let bytesWritten := int_add bytesWritten SEGMENT_SIZE in
  let sourceBytesStartPos := int_add sourceBytesStartPos SEGMENT_SIZE in
  retO (sourceBytesStartPos, bytesWritten, targetStartAddress, firstCommand).

Definition illegalTrackMessage (trackNum : Z) : string :=
  "illegal track number encountered: " ++ sprintf_d trackNum ++ LF.

(** [fuel] bounds the number of times the loop condition is evaluated. *)
Definition writeCommandsToLoadDiskTrackToMemory (fuel : nat)
    (diskImage : list byte) (trackNum SEGMENT_SIZE : Z) : Out unit :=
  if (trackNum <? 0x0) || (trackNum >? 0x22)
  then panicO (PanicMessage (illegalTrackMessage trackNum))
  else
    let diskImageWriteByteCount := 0x1000 in
    let sourceBytesStartPos := diskImageStartPosOfTrackSector trackNum 0x00 in
    let lineStartPad := generateLineStartPad in
    let bytesWritten := 0 in
    let targetStartAddress := 0x2000 in
    let firstCommand := true in
    whileO fuel
      (fun st => snd (fst (fst st)) <? diskImageWriteByteCount)
      (loadTrackBody diskImage lineStartPad SEGMENT_SIZE)
      (sourceBytesStartPos, bytesWritten, targetStartAddress, firstCommand) ;;
    retO tt.

Definition trackNumArray : list byte :=
  [ x00; x01; x02; x03; x04; x05; x06; x07; x08; x09; x0a; x0b; x0c; x0d; x0e; x0f;
    x10; x11; x12; x13; x14; x15; x16; x17; x18; x19; x1a; x1b; x1c; x1d; x1e; x1f;
    x20; x21; x22 ].

Definition clientProgram (trackNumByte : byte) : list byte :=
  [ xa9; x0c; (* load address of IOB for RWTS into A/Y *)
    xa0; x1c;
    x20; xd9; x03; (* call RWTS *)
    xb0; x12; (* break on error *)
    xa9; x0f; (* we are done after writing final sector *)
    xcd; x21; x0c;
    xf0; x0a; (* skip next iteration when done *)
    xee; x21; x0c; (* modify IOB : advance to write next sector *)
    xee; x25; x0c; (* modify IOB : advance to next memory page *)
    xf0; xe8; (* iterate *)
    xd0; xe6; (* iterate *)
    x60; (* return from client *)
    x00; (* break *)
    x01; x60; x01; x00; trackNumByte; x00; (* slot / drive / vol / track / sector *)
    x30; x0c; (* DCT address *)
    x00; x20; (* data buffer address (starts at 0x2000) *)
    x00; x00; x02; (* write *)
    x00; x00; x60; x01; (* actual volume / previous slot / drive *)
    x00; x00; x00; (* not used *)
    x00; x01; xef; xd8 ]. (* DCT table (constant) *)

(** Loop state of [writeCommandsToLoadRWTSClientProgramToMemory]:
    [sourceBytesStartPos], [bytesWritten], [targetStartAddress]. *)
Definition loadClientBody (clientProgram : list byte) (lineStartPad : string)
    (SEGMENT_SIZE : Z) (st : Z * Z * Z) : Out (Z * Z * Z) :=
  let '(sourceBytesStartPos, bytesWritten, targetStartAddress) := st in
  writeCommandsToFillAppleMemorySegment clientProgram lineStartPad targetStartAddress sourceBytesStartPos SEGMENT_SIZE ;;
  let targetStartAddress := int_add targetStartAddress SEGMENT_SIZE in
  let bytesWritten := int_add bytesWritten SEGMENT_SIZE in
  let sourceBytesStartPos := int_add sourceBytesStartPos SEGMENT_SIZE in
  retO (sourceBytesStartPos, bytesWritten, targetStartAddress).

Definition writeCommandsToLoadRWTSClientProgramToMemory (fuel : nat)
    (trackNum SEGMENT_SIZE : Z) : Out unit :=
  trackNumByte <- liftR (getIndex trackNumArray trackNum) ;;
  let clientProgram := clientProgram trackNumByte in
  let clientWriteByteCount := len clientProgram in
  let sourceBytesStartPos := 0 in
  let lineStartPad := generateLineStartPad in
  let bytesWritten := 0 in
  let targetStartAddress := 0x0C00 in
  whileO fuel
    (fun st => snd (fst st) <? clientWriteByteCount)
    (loadClientBody clientProgram lineStartPad SEGMENT_SIZE)
    (sourceBytesStartPos, bytesWritten, targetStartAddress) ;;
  retO tt.

Definition executeClient (trackNum : Z) : Out unit :=
  fprintf_stderr ("executing binary client program to write track "
                  ++ sprintf_d trackNum ++ LF) ;;
  let lineStartPad := generateLineStartPad in
  printf (lineStartPad ++ "C00G" ++ CR).

(** * Vocabulary of the statements

    The definitions below are not part of the program: they name what the
    properties talk about.  The [spec_] definitions spell out the output
    the specification describes, to be compared with what the embedded
    functions write. *)

(** ** Sectors *)

(** Offset of a sector in the image, as a list index. *)
Definition sectorPos (t s : Z) : nat := Z.to_nat (4096 * t + 256 * s).

(** The physical sector ordering written by the reordering pass, as listed
    in the comment above [convertDiskImageFromProdosOrderToDos33Order]. *)
Definition SectorOrderMapping : list Z :=
  [0x00; 0x0E; 0x0D; 0x0C; 0x0B; 0x0A; 0x09; 0x08;
   0x07; 0x06; 0x05; 0x04; 0x03; 0x02; 0x01; 0x0F].

(** Which sector's content ends up in sector [s]. *)
Definition sectorOrder (s : Z) : Z := nth (Z.to_nat s) SectorOrderMapping s.

(** The 256 bytes of sector [s] of track [t]. *)
Definition sectorBytes (img : list byte) (t s : Z) : list byte :=
  take 256 (drop (sectorPos t s) img).

(** One rotation group of the track loop: sector [a] goes to the scratch
    buffer, sector [b] is copied over sector [a], the buffer is written to
    sector [b]. *)
Definition rotationGroup (buf img : list byte) (t a b : Z)
    : Result (list byte * list byte) :=
  let* buf := readSectorDataToBuffer buf img t a in
  let* img := copySectorDataInImage img t b a in
  let* img := writeSectorDataFromBuffer buf img t b in
  Ok (buf, img).

(** The pairs of sectors that trade places. *)
Definition sectorPairs : list (Z * Z) :=
  [(1, 14); (2, 13); (3, 12); (4, 11); (5, 10); (6, 9); (7, 8)].

(** ** Text *)

(** Every character of [s] passes the test [p]. *)
Fixpoint allChars (p : ascii -> bool) (s : string) : bool :=
  match s with
  | EmptyString => true
  | String c s' => p c && allChars p s'
  end.

(** The digits of [%X]. *)
Definition upperHexDigits : string := "0123456789ABCDEF".

Definition isUpperHexDigit (c : ascii) : bool :=
  existsb (Ascii.eqb c) (list_ascii_of_string upperHexDigits).

(** Reading upper-case hexadecimal text back. *)
Definition hexDigitValue (c : ascii) : Z :=
  match String.index 0 (String c EmptyString) upperHexDigits with
  | Some n => Z.of_nat n
  | None => 0
  end.

Fixpoint hexValueFrom (acc : Z) (s : string) : Z :=
  match s with
  | EmptyString => acc
  | String c s' => hexValueFrom (16 * acc + hexDigitValue c) s'
  end.

Definition hexValue (s : string) : Z := hexValueFrom 0 s.

(** Two-digit groups separated by single spaces. *)
Definition hexBytes (bytes : list byte) : string :=
  String.concat " " (map (fun b => sprintf_02X (byteValue b)) bytes).

(** ** Commands *)

(** [count] bytes of [src] from offset [pos], fewer if [src] ends before. *)
Definition segment (src : list byte) (pos count : Z) : list byte :=
  take (Z.to_nat count) (drop (Z.to_nat pos) src).

(** The text of the command that stores [bytes] at [addr]. *)
Definition commandLine (addr : Z) (bytes : list byte) : string :=
  (generateLineStartPad ++ generateMemoryAddress addr ++ ":" ++ hexBytes bytes ++ CR)%string.

(** The ramp: the first chunk's offset and the address 0x2000, with
    [s - 8], ..., [s] bytes. *)
Definition spec_rampPayloads (img : list byte) (t s : Z) : list (list byte) :=
  map (fun k => segment img (4096 * t) (s - 8 + Z.of_nat k)) (seq 0 9).

Definition spec_rampCommands (img : list byte) (t s : Z) : list string :=
  map (commandLine 0x2000) (spec_rampPayloads img t s).

(** The steady state: payload [i] is the [s] bytes at offset [4096 t + i s]
    of the image, and command [i] stores it at address [0x2000 + i s]. *)
Definition spec_mainPayloads (img : list byte) (t s : Z) : list (list byte) :=
  map (fun i => segment img (4096 * t + Z.of_nat i * s) s)
      (seq 0 (Z.to_nat (4096 / s))).

Definition spec_mainCommands (img : list byte) (t s : Z) : list string :=
  imap (fun i payload => commandLine (0x2000 + Z.of_nat i * s) payload)
       (spec_mainPayloads img t s).

(** The loop conditions of the two loaders. *)
Definition loadTrackCond (st : Z * Z * Z * bool) : bool :=
  snd (fst (fst st)) <? 0x1000.

(** Offset of the track number in the client program (the IOB track field,
    assembled at 0x0C20). *)
Definition trackParameterOffset : nat := 32.

(** Number of fill commands for [total] bytes in segments of [s]. *)
Definition segmentCount (total s : Z) : nat := Z.to_nat ((total + s - 1) / s).

(** The client program in segments of [s] bytes, stored from 0x0C00 on. *)
Definition spec_clientPayloads (prog : list byte) (s : Z) : list (list byte) :=
  map (fun i => segment prog (Z.of_nat i * s) s) (seq 0 (segmentCount (len prog) s)).

Definition spec_clientCommands (prog : list byte) (s : Z) : list string :=
  imap (fun i payload => commandLine (0x0C00 + Z.of_nat i * s) payload)
       (spec_clientPayloads prog s).

Definition loadClientCond (total : Z) (st : Z * Z * Z) : bool :=
  snd (fst st) <? total.

(** ** Lines and failures *)

(** Neither a carriage return nor a line feed. *)
Definition notLineBreak (c : ascii) : bool :=
  negb (Ascii.eqb c (ascii_of_nat 13)) && negb (Ascii.eqb c (ascii_of_nat 10)).

(** The characters of a command after the pad. *)
Definition isCommandChar (c : ascii) : bool :=
  isUpperHexDigit c || Ascii.eqb c " " || Ascii.eqb c ":" || Ascii.eqb c "G".

(** A line of the primary output: the pad, a body without line breaks, one
    carriage return. *)
Definition wellFormedLine (text : string) : Prop :=
  exists body, text = (generateLineStartPad ++ body ++ CR)%string
               /\ allChars notLineBreak body = true.

(** [m] writes only lines satisfying [P] to standard output, and panics only
    with a panic satisfying [Q]. *)
Definition respects {A} (P : string -> Prop) (Q : panic -> Prop) (m : Out A) : Prop :=
  Forall P (stdoutOf (fst m)) /\ forall p, snd m = Panicked p -> Q p.

(** ** Sample data *)

(** A sector holding the bytes 0x00 .. 0xFF in order. *)
Definition cyclicSector : list byte :=
  map (fun n => match Byte.of_N (N.of_nat n) with Some b => b | None => x00 end)
      (seq 0 256).

(** One track: 16 such sectors. *)
Definition sampleTrack : list byte := concat (repeat cyclicSector 16).

(** A full image: 35 such tracks. *)
Definition sampleImage : list byte := concat (repeat sampleTrack 35).

(** The first ten bytes of an image, the rest missing. *)
Definition truncatedImage : list byte := take 10 cyclicSector.

(** * Proofs *)

(** ** Integers in range *)

Lemma wrap_small z : min_int <= z <= max_int -> wrap z = z.
Proof.
  unfold wrap, min_int, max_int. intros H.
  rewrite Z.mod_small by lia. lia.
Qed.

Lemma int_add_small a b : min_int <= a + b <= max_int -> int_add a b = a + b.
Proof. apply wrap_small. Qed.

Lemma int_sub_small a b : min_int <= a - b <= max_int -> int_sub a b = a - b.
Proof. apply wrap_small. Qed.

Lemma int_mul_small a b : min_int <= a * b <= max_int -> int_mul a b = a * b.
Proof. apply wrap_small. Qed.

Lemma max_int_val : max_int = 9223372036854775807.
Proof. reflexivity. Qed.

Lemma min_int_val : min_int = -9223372036854775808.
Proof. reflexivity. Qed.

Opaque max_int min_int.

Ltac int_range := rewrite ?max_int_val, ?min_int_val in *; lia.

Lemma diskImageStartPos_small t s :
  0 <= t <= 34 -> 0 <= s <= 15 ->
  diskImageStartPosOfTrackSector t s = 4096 * t + 256 * s.
Proof.
  intros Ht Hs. unfold diskImageStartPosOfTrackSector.
  rewrite (int_mul_small 4096 t) by int_range.
  rewrite (int_mul_small 256 s) by int_range.
  apply int_add_small. int_range.
Qed.

(** ** Total correctness of loops *)

Section WhileRule.
Context {S : Type} (Inv : S -> Prop) (measure : S -> nat).
Context (cond : S -> bool) (body : S -> Result S).
Hypothesis body_step : forall s, Inv s -> cond s = true ->
  exists s', body s = Ok s' /\ Inv s' /\ (measure s' < measure s)%nat.

Lemma while_rule fuel s :
  Inv s -> (measure s < fuel)%nat ->
  exists s', while fuel cond body s = Ok s' /\ Inv s' /\ cond s' = false.
Proof.
  revert s. induction fuel as [|fuel IH]; intros s HI Hm; [lia|].
  simpl. destruct (cond s) eqn:Hc.
  - destruct (body_step s HI Hc) as (s' & -> & HI' & Hlt). simpl.
    apply IH; [assumption | lia].
  - exists s. auto.
Qed.
End WhileRule.

(** ** Indexing *)

Lemma getIndex_ok (l : list byte) i b :
  0 <= i -> l !! Z.to_nat i = Some b -> getIndex l i = Ok b.
Proof.
  intros Hi Hl. unfold getIndex, len.
  apply lookup_lt_Some in Hl as Hlt.
  destruct (i <? 0) eqn:E1; [lia|].
  destruct (Z.of_nat (length l) <=? i) eqn:E2; [lia|].
  simpl. now rewrite Hl.
Qed.

Lemma setIndex_ok (l : list byte) i b :
  0 <= i < len l -> setIndex l i b = Ok (<[Z.to_nat i := b]> l).
Proof.
  intros Hi. unfold setIndex.
  destruct (i <? 0) eqn:E1; [lia|].
  destruct (len l <=? i) eqn:E2; [lia|]. reflexivity.
Qed.

Lemma lookup_in_range (l : list byte) (i : nat) :
  (i < length l)%nat -> exists b, l !! i = Some b.
Proof. intros H. apply lookup_lt_is_Some_2 in H. destruct H as [b Hb]. eauto. Qed.

(** ** The three copy loops *)

Section CopyLoops.
Variable img : list byte.

Lemma readSectorLoop_ok (buf : list byte) p :
  0 <= p <= 0x7FFFFFFF -> p + 256 <= len img -> length buf = 256%nat ->
  exists buf',
    while 257 (fun st => snd st <? 0x0100) (readSectorBody img) (buf, p, 0)
      = Ok (buf', p + 256, 256)
    /\ length buf' = 256%nat
    /\ forall j, (j < 256)%nat -> buf' !! j = img !! (Z.to_nat p + j)%nat.
Proof.
  intros Hp Hlen Hbuf.
  pose (Inv := fun st : list byte * Z * Z =>
    let '(b, sp, dp) := st in
    0 <= dp <= 256 /\ sp = p + dp /\ length b = 256%nat /\
    forall j, Z.of_nat j < dp -> b !! j = img !! (Z.to_nat p + j)%nat).
  destruct (while_rule Inv (fun st => Z.to_nat (256 - snd st))
              (fun st => snd st <? 0x0100) (readSectorBody img)) with
    (fuel := 257%nat) (s := (buf, p, 0)) as (st' & Hrun & HI & Hc).
  - subst Inv. intros [[b sp] dp] (Hdp & Hsp & Hb & Hcopy) Hcond. simpl in Hcond.
    apply Z.ltb_lt in Hcond. unfold len in Hlen.
    destruct (lookup_in_range img (Z.to_nat sp)) as [x Hx]; [lia|].
    unfold readSectorBody.
    rewrite (getIndex_ok _ _ x) by (lia || exact Hx). simpl.
    rewrite setIndex_ok by (unfold len; lia). simpl.
    rewrite !int_add_small by int_range.
    eexists. split; [reflexivity|]. simpl. repeat split; try lia.
    + now rewrite length_insert.
    + intros j Hj. destruct (decide (j = Z.to_nat dp)) as [->|Hne].
      * rewrite list_lookup_insert_eq by lia. rewrite <- Hx. f_equal. lia.
      * rewrite list_lookup_insert_ne by lia. apply Hcopy. lia.
  - subst Inv. simpl. repeat split; intros; lia.
  - simpl. lia.
  - subst Inv. destruct st' as [[b sp] dp]. destruct HI as (Hdp & Hsp & Hb & Hcopy).
    simpl in Hc. apply Z.ltb_ge in Hc.
    assert (dp = 256) by lia. subst dp sp.
    exists b. repeat split; auto. intros j Hj. apply Hcopy. lia.
Qed.

Lemma writeSectorLoop_ok (buf : list byte) p :
  0 <= p <= 0x7FFFFFFF -> p + 256 <= len img -> length buf = 256%nat ->
  exists img',
    while 257 (fun st => snd st <? 0x0100) (writeSectorBody buf) (img, p, 0)
      = Ok (img', p + 256, 256)
    /\ length img' = length img
    /\ (forall j, (j < 256)%nat -> img' !! (Z.to_nat p + j)%nat = buf !! j)
    /\ (forall i, (i < Z.to_nat p \/ Z.to_nat p + 256 <= i)%nat ->
                  img' !! i = img !! i).
Proof.
  intros Hp Hlen Hbuf.
  pose (Inv := fun st : list byte * Z * Z =>
    let '(cur, dp, sp) := st in
    0 <= sp <= 256 /\ dp = p + sp /\ length cur = length img /\
    (forall j, Z.of_nat j < sp -> cur !! (Z.to_nat p + j)%nat = buf !! j) /\
    (forall i, (i < Z.to_nat p \/ Z.to_nat p + 256 <= i)%nat ->
               cur !! i = img !! i)).
  destruct (while_rule Inv (fun st => Z.to_nat (256 - snd st))
              (fun st => snd st <? 0x0100) (writeSectorBody buf)) with
    (fuel := 257%nat) (s := (img, p, 0)) as (st' & Hrun & HI & Hc).
  - subst Inv. intros [[cur dp] sp] (Hsp & Hdp & Hcur & Hin & Hout) Hcond. simpl in Hcond.
    apply Z.ltb_lt in Hcond. unfold len in Hlen.
    destruct (lookup_in_range buf (Z.to_nat sp)) as [x Hx]; [lia|].
    unfold writeSectorBody.
    rewrite (getIndex_ok _ _ x) by (lia || exact Hx). simpl.
    rewrite setIndex_ok by (unfold len; lia). simpl.
    rewrite !int_add_small by int_range.
    eexists. split; [reflexivity|]. simpl. repeat split; try lia.
    + now rewrite length_insert.
    + intros j Hj. destruct (decide (j = Z.to_nat sp)) as [->|Hne].
      * rewrite Hx. replace (Z.to_nat p + Z.to_nat sp)%nat with (Z.to_nat dp) by lia.
        apply list_lookup_insert_eq. lia.
      * rewrite list_lookup_insert_ne by lia. apply Hin. lia.
    + intros i Hi. rewrite list_lookup_insert_ne by lia. now apply Hout.
  - subst Inv. simpl. repeat split; intros; lia.
  - simpl. lia.
  - subst Inv. destruct st' as [[cur dp] sp]. destruct HI as (Hsp & Hdp & Hcur & Hin & Hout).
    simpl in Hc. apply Z.ltb_ge in Hc.
    assert (sp = 256) by lia. subst sp dp.
    exists cur. repeat split; auto. intros j Hj. apply Hin. lia.
Qed.

(** Source and destination sectors do not overlap. *)
Lemma copySectorLoop_ok ps pd :
  0 <= ps <= 0x7FFFFFFF -> 0 <= pd <= 0x7FFFFFFF ->
  ps + 256 <= len img -> pd + 256 <= len img ->
  ps + 256 <= pd \/ pd + 256 <= ps ->
  exists img',
    while 257 (fun st => snd st <? 0x0100) copySectorBody (img, ps, pd, 0)
      = Ok (img', ps + 256, pd + 256, 256)
    /\ length img' = length img
    /\ (forall j, (j < 256)%nat ->
          img' !! (Z.to_nat pd + j)%nat = img !! (Z.to_nat ps + j)%nat)
    /\ (forall i, (i < Z.to_nat pd \/ Z.to_nat pd + 256 <= i)%nat ->
                  img' !! i = img !! i).
Proof.
  intros Hps Hpd Hls Hld Hdisj.
  pose (Inv := fun st : list byte * Z * Z * Z =>
    let '(cur, sp, dp, n) := st in
    0 <= n <= 256 /\ sp = ps + n /\ dp = pd + n /\ length cur = length img /\
    (forall j, Z.of_nat j < n ->
       cur !! (Z.to_nat pd + j)%nat = img !! (Z.to_nat ps + j)%nat) /\
    (forall i, (i < Z.to_nat pd \/ Z.to_nat pd + 256 <= i)%nat ->
               cur !! i = img !! i)).
  destruct (while_rule Inv (fun st => Z.to_nat (256 - snd st))
              (fun st => snd st <? 0x0100) copySectorBody) with
    (fuel := 257%nat) (s := (img, ps, pd, 0)) as (st' & Hrun & HI & Hc).
  - subst Inv. intros [[[cur sp] dp] n] (Hn & Hsp & Hdp & Hcur & Hin & Hout) Hcond.
    simpl in Hcond. apply Z.ltb_lt in Hcond. unfold len in Hls, Hld.
    destruct (lookup_in_range img (Z.to_nat sp)) as [x Hx]; [lia|].
    assert (Hx' : cur !! Z.to_nat sp = Some x) by (rewrite Hout by lia; exact Hx).
    unfold copySectorBody.
    rewrite (getIndex_ok _ _ x) by (lia || exact Hx'). simpl.
    rewrite setIndex_ok by (unfold len; lia). simpl.
    rewrite !int_add_small by int_range.
    eexists. split; [reflexivity|]. simpl. repeat split; try lia.
    + now rewrite length_insert.
    + intros j Hj. destruct (decide (j = Z.to_nat n)) as [->|Hne].
      * replace (Z.to_nat ps + Z.to_nat n)%nat with (Z.to_nat sp) by lia.
        rewrite Hx. replace (Z.to_nat pd + Z.to_nat n)%nat with (Z.to_nat dp) by lia.
        apply list_lookup_insert_eq. lia.
      * rewrite list_lookup_insert_ne by lia. apply Hin. lia.
    + intros i Hi. rewrite list_lookup_insert_ne by lia. now apply Hout.
  - subst Inv. simpl. repeat split; intros; lia.
  - simpl. lia.
  - subst Inv. destruct st' as [[[cur sp] dp] n].
    destruct HI as (Hn & Hsp & Hdp & Hcur & Hin & Hout).
    simpl in Hc. apply Z.ltb_ge in Hc.
    assert (n = 256) by lia. subst n sp dp.
    exists cur. repeat split; auto. intros j Hj. apply Hin. lia.
Qed.
End CopyLoops.

(** ** Sectors of a track *)

Section Sectors.
Variables (img : list byte) (t : Z).
Hypothesis track_range : 0 <= t <= 34.
Hypothesis track_present : 4096 * (t + 1) <= len img.

Lemma readSectorDataToBuffer_ok buf s :
  0 <= s <= 15 -> length buf = 256%nat ->
  exists buf',
    readSectorDataToBuffer buf img t s = Ok buf'
    /\ length buf' = 256%nat
    /\ forall j, (j < 256)%nat -> buf' !! j = img !! (sectorPos t s + j)%nat.
Proof.
  intros Hs Hbuf. unfold readSectorDataToBuffer.
  rewrite diskImageStartPos_small by assumption.
  destruct (readSectorLoop_ok img buf (4096 * t + 256 * s))
    as (buf' & -> & Hlen & Hcopy); [lia | lia | assumption |].
  exists buf'. simpl. auto.
Qed.

Lemma writeSectorDataFromBuffer_ok buf s :
  0 <= s <= 15 -> length buf = 256%nat ->
  exists img',
    writeSectorDataFromBuffer buf img t s = Ok img'
    /\ length img' = length img
    /\ (forall j, (j < 256)%nat -> img' !! (sectorPos t s + j)%nat = buf !! j)
    /\ (forall i, (i < sectorPos t s \/ sectorPos t s + 256 <= i)%nat ->
                  img' !! i = img !! i).
Proof.
  intros Hs Hbuf. unfold writeSectorDataFromBuffer.
  rewrite diskImageStartPos_small by assumption.
  destruct (writeSectorLoop_ok img buf (4096 * t + 256 * s))
    as (img' & -> & Hlen & Hin & Hout); [lia | lia | assumption |].
  exists img'. simpl. auto.
Qed.

Lemma copySectorDataInImage_ok src dst :
  0 <= src <= 15 -> 0 <= dst <= 15 -> src <> dst ->
  exists img',
    copySectorDataInImage img t src dst = Ok img'
    /\ length img' = length img
    /\ (forall j, (j < 256)%nat ->
          img' !! (sectorPos t dst + j)%nat = img !! (sectorPos t src + j)%nat)
    /\ (forall i, (i < sectorPos t dst \/ sectorPos t dst + 256 <= i)%nat ->
                  img' !! i = img !! i).
Proof.
  intros Hsrc Hdst Hne. unfold copySectorDataInImage.
  rewrite !diskImageStartPos_small by assumption.
  destruct (copySectorLoop_ok img (4096 * t + 256 * src) (4096 * t + 256 * dst))
    as (img' & -> & Hlen & Hin & Hout); [lia | lia | lia | lia | lia |].
  exists img'. simpl. auto.
Qed.
End Sectors.

Lemma rotationGroup_ok buf img t a b :
  0 <= t <= 34 -> 4096 * (t + 1) <= len img ->
  0 <= a <= 15 -> 0 <= b <= 15 -> a <> b -> length buf = 256%nat ->
  exists buf' img',
    rotationGroup buf img t a b = Ok (buf', img')
    /\ length buf' = 256%nat
    /\ length img' = length img
    /\ (forall j, (j < 256)%nat ->
          img' !! (sectorPos t a + j)%nat = img !! (sectorPos t b + j)%nat)
    /\ (forall j, (j < 256)%nat ->
          img' !! (sectorPos t b + j)%nat = img !! (sectorPos t a + j)%nat)
    /\ (forall i, (i < sectorPos t a \/ sectorPos t a + 256 <= i)%nat ->
                  (i < sectorPos t b \/ sectorPos t b + 256 <= i)%nat ->
                  img' !! i = img !! i).
Proof.
  intros Ht Hlen Ha Hb Hne Hbuf. unfold rotationGroup.
  destruct (readSectorDataToBuffer_ok img t Ht Hlen buf a Ha Hbuf)
    as (buf1 & -> & Hbuf1 & Hread). simpl.
  destruct (copySectorDataInImage_ok img t Ht Hlen b a Hb Ha ltac:(lia))
    as (img1 & -> & Hlen1 & Hcin & Hcout). simpl.
  assert (Hlen1' : 4096 * (t + 1) <= len img1) by (unfold len in *; lia).
  destruct (writeSectorDataFromBuffer_ok img1 t Ht Hlen1' buf1 b Hb Hbuf1)
    as (img2 & -> & Hlen2 & Hwin & Hwout). simpl.
  exists buf1, img2. repeat split; auto; try congruence.
  - intros j Hj. rewrite Hwout by (unfold sectorPos; lia). now apply Hcin.
  - intros j Hj. rewrite Hwin by assumption. now apply Hread.
  - intros i Hia Hib. rewrite Hwout by assumption. now apply Hcout.
Qed.

Lemma convertTrackBody_groups buf img t :
  convertTrackBody (buf, img, t) =
    (let* (buf, img) := rotationGroup buf img t 0x01 0x0E in
     let* (buf, img) := rotationGroup buf img t 0x02 0x0D in
     let* (buf, img) := rotationGroup buf img t 0x03 0x0C in
     let* (buf, img) := rotationGroup buf img t 0x04 0x0B in
     let* (buf, img) := rotationGroup buf img t 0x05 0x0A in
     let* (buf, img) := rotationGroup buf img t 0x06 0x09 in
     let* (buf, img) := rotationGroup buf img t 0x07 0x08 in
     Ok (buf, img, int_add t 1)).
Proof.
  unfold convertTrackBody, rotationGroup.
  repeat match goal with
         | |- context [bindR ?m _] =>
             lazymatch m with
             | bindR _ _ => fail
             | _ => destruct m; cbn [bindR]; try reflexivity
             end
         end.
Qed.

(** ** One track *)

Lemma sector_cases s :
  0 <= s <= 15 ->
  s = 0 \/ s = 1 \/ s = 2 \/ s = 3 \/ s = 4 \/ s = 5 \/ s = 6 \/ s = 7 \/
  s = 8 \/ s = 9 \/ s = 10 \/ s = 11 \/ s = 12 \/ s = 13 \/ s = 14 \/ s = 15.
Proof. lia. Qed.

Lemma sectorOrder_range s : 0 <= s <= 15 -> 0 <= sectorOrder s <= 15.
Proof.
  intros H. destruct (sector_cases s H) as
    [->|[->|[->|[->|[->|[->|[->|[->|[->|[->|[->|[->|[->|[->|[->| ->]]]]]]]]]]]]]]];
    vm_compute; split; discriminate.
Qed.

Lemma sectorOrder_involutive s : 0 <= s <= 15 -> sectorOrder (sectorOrder s) = s.
Proof.
  intros H. destruct (sector_cases s H) as
    [->|[->|[->|[->|[->|[->|[->|[->|[->|[->|[->|[->|[->|[->|[->| ->]]]]]]]]]]]]]]];
    reflexivity.
Qed.

(** Follow a byte of the image back through one rotation group. *)
Ltac through_group HA HB HC :=
  first [ rewrite HA by assumption
        | rewrite HB by assumption
        | rewrite HC by (unfold sectorPos; lia) ].

Lemma convertTrackBody_ok buf img t :
  0 <= t <= 34 -> 4096 * (t + 1) <= len img -> length buf = 256%nat ->
  exists buf' img',
    convertTrackBody (buf, img, t) = Ok (buf', img', t + 1)
    /\ length buf' = 256%nat
    /\ length img' = length img
    /\ (forall s j, 0 <= s <= 15 -> (j < 256)%nat ->
          img' !! (sectorPos t s + j)%nat
          = img !! (sectorPos t (sectorOrder s) + j)%nat)
    /\ (forall i, (i < sectorPos t 0 \/ sectorPos t 0 + 4096 <= i)%nat ->
                  img' !! i = img !! i).
Proof.
  intros Ht Hlen Hbuf. rewrite convertTrackBody_groups.
  destruct (rotationGroup_ok buf img t 1 14)
    as (b1 & i1 & -> & Hb1 & Hl1 & A1 & B1 & C1); try lia. cbn [bindR].
  destruct (rotationGroup_ok b1 i1 t 2 13)
    as (b2 & i2 & -> & Hb2 & Hl2 & A2 & B2 & C2); try (unfold len in *; lia). cbn [bindR].
  destruct (rotationGroup_ok b2 i2 t 3 12)
    as (b3 & i3 & -> & Hb3 & Hl3 & A3 & B3 & C3); try (unfold len in *; lia). cbn [bindR].
  destruct (rotationGroup_ok b3 i3 t 4 11)
    as (b4 & i4 & -> & Hb4 & Hl4 & A4 & B4 & C4); try (unfold len in *; lia). cbn [bindR].
  destruct (rotationGroup_ok b4 i4 t 5 10)
    as (b5 & i5 & -> & Hb5 & Hl5 & A5 & B5 & C5); try (unfold len in *; lia). cbn [bindR].
  destruct (rotationGroup_ok b5 i5 t 6 9)
    as (b6 & i6 & -> & Hb6 & Hl6 & A6 & B6 & C6); try (unfold len in *; lia). cbn [bindR].
  destruct (rotationGroup_ok b6 i6 t 7 8)
    as (b7 & i7 & -> & Hb7 & Hl7 & A7 & B7 & C7); try (unfold len in *; lia). cbn [bindR].
  rewrite int_add_small by int_range.
  exists b7, i7. split; [reflexivity|]. split; [assumption|].
  split; [congruence|]. split.
  - intros s j Hs Hj.
    destruct (sector_cases s Hs) as
      [->|[->|[->|[->|[->|[->|[->|[->|[->|[->|[->|[->|[->|[->|[->| ->]]]]]]]]]]]]]]];
      through_group A7 B7 C7; through_group A6 B6 C6; through_group A5 B5 C5;
      through_group A4 B4 C4; through_group A3 B3 C3; through_group A2 B2 C2;
      through_group A1 B1 C1; reflexivity.
  - intros i Hi.
    rewrite C7, C6, C5, C4, C3, C2, C1 by (unfold sectorPos in *; lia).
    reflexivity.
Qed.

(** ** The whole image *)

Lemma convert_spec img :
  143360 <= len img ->
  exists img',
    convertDiskImageFromProdosOrderToDos33Order img = Ok img'
    /\ length img' = length img
    /\ (forall t s j, 0 <= t <= 34 -> 0 <= s <= 15 -> (j < 256)%nat ->
          img' !! (sectorPos t s + j)%nat
          = img !! (sectorPos t (sectorOrder s) + j)%nat)
    /\ (forall i : nat, 143360 <= Z.of_nat i -> img' !! i = img !! i).
Proof.
  intros Hlen. unfold convertDiskImageFromProdosOrderToDos33Order.
  pose (Inv := fun st : list byte * list byte * Z =>
    let '(buf, cur, k) := st in
    0 <= k <= 35 /\ length buf = 256%nat /\ length cur = length img /\
    (forall t s j, 0 <= t < k -> 0 <= s <= 15 -> (j < 256)%nat ->
       cur !! (sectorPos t s + j)%nat
       = img !! (sectorPos t (sectorOrder s) + j)%nat) /\
    (forall i, (Z.to_nat (4096 * k) <= i)%nat -> cur !! i = img !! i)).
  destruct (while_rule Inv (fun st => Z.to_nat (35 - snd st))
              (fun st => snd st <? 0x23) convertTrackBody) with
    (fuel := 36%nat) (s := (zeroSectorBuffer, img, 0)) as (st' & -> & HI & Hc).
  - subst Inv. intros [[buf cur] k] (Hk & Hbuf & Hcur & Hdone & Hrest) Hcond.
    simpl in Hcond. apply Z.ltb_lt in Hcond.
    destruct (convertTrackBody_ok buf cur k)
      as (buf' & cur' & -> & Hbuf' & Hcur' & Htrack & Hother);
      [lia | unfold len in *; lia | assumption |].
    eexists. split; [reflexivity|]. simpl. repeat split; try lia.
    + intros t s j Ht Hs Hj. destruct (decide (t = k)) as [->|Hne].
      * rewrite Htrack by assumption. apply Hrest.
        pose proof (sectorOrder_range s Hs). unfold sectorPos. lia.
      * rewrite Hother by (unfold sectorPos; lia). apply Hdone; lia.
    + intros i Hi. rewrite Hother by (unfold sectorPos; lia). apply Hrest. lia.
  - subst Inv. simpl. repeat split; intros; try lia.
  - simpl. lia.
  - subst Inv. destruct st' as [[buf cur] k].
    destruct HI as (Hk & Hbuf & Hcur & Hdone & Hrest).
    simpl in Hc. apply Z.ltb_ge in Hc. assert (k = 35) by lia. subst k.
    exists cur. simpl. repeat split; auto.
    + intros. apply Hdone; lia.
    + intros i Hi. apply Hrest. lia.
Qed.

Lemma sectorBytes_ext (img1 img2 : list byte) t a b :
  (forall j, (j < 256)%nat ->
     img1 !! (sectorPos t a + j)%nat = img2 !! (sectorPos t b + j)%nat) ->
  sectorBytes img1 t a = sectorBytes img2 t b.
Proof.
  intros H. unfold sectorBytes. apply list_eq. intros j.
  rewrite !lookup_take, !lookup_drop.
  destruct (decide (j < 256)%nat) as [Hj|Hj]; [now apply H | reflexivity].
Qed.

Lemma sectorBytes_length (img : list byte) t s :
  0 <= t <= 34 -> 0 <= s <= 15 -> 4096 * (t + 1) <= len img ->
  length (sectorBytes img t s) = 256%nat.
Proof.
  intros Ht Hs Hlen. unfold sectorBytes, sectorPos, len in *.
  rewrite length_take, length_drop. lia.
Qed.

Lemma sectorPairs_order a b :
  In (a, b) sectorPairs ->
  0 <= a <= 15 /\ 0 <= b <= 15 /\ sectorOrder a = b /\ sectorOrder b = a.
Proof.
  unfold sectorPairs. simpl.
  intros [H|[H|[H|[H|[H|[H|[H|[]]]]]]]]; inversion H; subst;
    repeat split; (lia || reflexivity).
Qed.

(** Every index below the end of track 34 lies in one sector of one track. *)
Lemma index_decompose (i : nat) :
  Z.of_nat i < 143360 ->
  exists t s j, 0 <= t <= 34 /\ 0 <= s <= 15 /\ (j < 256)%nat
                /\ i = (sectorPos t s + j)%nat.
Proof.
  intros Hi.
  exists (Z.of_nat i / 4096), (Z.of_nat i mod 4096 / 256),
         (Z.to_nat (Z.of_nat i mod 256)).
  unfold sectorPos.
  pose proof (Z.div_mod (Z.of_nat i) 4096 ltac:(lia)).
  pose proof (Z.mod_pos_bound (Z.of_nat i) 4096 ltac:(lia)).
  pose proof (Z.div_mod (Z.of_nat i mod 4096) 256 ltac:(lia)).
  pose proof (Z.mod_pos_bound (Z.of_nat i mod 4096) 256 ltac:(lia)).
  pose proof (Z.mod_pos_bound (Z.of_nat i) 256 ltac:(lia)).
  assert (Hmm : (Z.of_nat i mod 4096) mod 256 = Z.of_nat i mod 256).
  { apply Z.mod_mod_divide. exists 16. reflexivity. }
  assert (0 <= Z.of_nat i / 4096 <= 34).
  { split; [apply Z.div_pos; lia|]. apply Z.lt_succ_r.
    apply Z.div_lt_upper_bound; lia. }
  assert (0 <= Z.of_nat i mod 4096 / 256 <= 15).
  { split; [apply Z.div_pos; lia|]. apply Z.lt_succ_r.
    apply Z.div_lt_upper_bound; lia. }
  repeat split; try lia.
Qed.

(** C1: after one application of the reordering pass to an image that holds
    tracks 0..34 in full, on every track [t] in [0,34] and for every pair
    [(a,b)] of [(1,14)], [(2,13)], [(3,12)], [(4,11)], [(5,10)], [(6,9)],
    [(7,8)], the 256 bytes at sector [a] are the original bytes of sector
    [b] and the other way round; sectors 0 and 15 keep their bytes. *)
Theorem reorder_swaps_sector_pairs (img : list byte) :
  143360 <= len img ->
  exists img',
    convertDiskImageFromProdosOrderToDos33Order img = Ok img' /\
    forall t, 0 <= t <= 34 ->
      (forall a b, In (a, b) sectorPairs ->
         length (sectorBytes img' t a) = 256%nat /\
         length (sectorBytes img' t b) = 256%nat /\
         sectorBytes img' t a = sectorBytes img t b /\
         sectorBytes img' t b = sectorBytes img t a) /\
      sectorBytes img' t 0 = sectorBytes img t 0 /\
      sectorBytes img' t 15 = sectorBytes img t 15.
Proof.
  intros Hlen.
  destruct (convert_spec img Hlen) as (img' & Hrun & Hlen' & Hperm & _).
  exists img'. split; [exact Hrun|]. intros t Ht.
  assert (Hlen'' : 4096 * (t + 1) <= len img') by (unfold len in *; lia).
  split; [|split].
  - intros a b Hab.
    destruct (sectorPairs_order a b Hab) as (Ha & Hb & Hoa & Hob).
    repeat split.
    + now apply sectorBytes_length.
    + now apply sectorBytes_length.
    + apply sectorBytes_ext. intros j Hj. rewrite Hperm by assumption.
      now rewrite Hoa.
    + apply sectorBytes_ext. intros j Hj. rewrite Hperm by assumption.
      now rewrite Hob.
  - apply sectorBytes_ext. intros j Hj. now rewrite Hperm by (assumption || lia).
  - apply sectorBytes_ext. intros j Hj. now rewrite Hperm by (assumption || lia).
Qed.

Lemma reorder_swaps_sector_pairs_witness :
  143360 <= len sampleImage
  /\ exists img',
       convertDiskImageFromProdosOrderToDos33Order sampleImage = Ok img' /\
       forall t, 0 <= t <= 34 ->
         (forall a b, In (a, b) sectorPairs ->
            length (sectorBytes img' t a) = 256%nat /\
            length (sectorBytes img' t b) = 256%nat /\
            sectorBytes img' t a = sectorBytes sampleImage t b /\
            sectorBytes img' t b = sectorBytes sampleImage t a) /\
         sectorBytes img' t 0 = sectorBytes sampleImage t 0 /\
         sectorBytes img' t 15 = sectorBytes sampleImage t 15.
Proof.
  assert (H : 143360 <= len sampleImage) by (vm_compute; discriminate).
  split; [exact H|]. exact (reorder_swaps_sector_pairs sampleImage H).
Defined.

(** C10: applied twice to an image of at least 143360 bytes, the reordering
    pass gives the image back byte for byte. *)
Theorem reorder_involution (img : list byte) :
  143360 <= len img ->
  exists img',
    convertDiskImageFromProdosOrderToDos33Order img = Ok img' /\
    convertDiskImageFromProdosOrderToDos33Order img' = Ok img.
Proof.
  intros Hlen.
  destruct (convert_spec img Hlen) as (img1 & Hrun1 & Hlen1 & Hperm1 & Hrest1).
  assert (Hlen1' : 143360 <= len img1) by (unfold len in *; lia).
  destruct (convert_spec img1 Hlen1') as (img2 & Hrun2 & Hlen2 & Hperm2 & Hrest2).
  exists img1. split; [exact Hrun1|]. rewrite Hrun2. f_equal.
  apply list_eq. intros i.
  destruct (Z_lt_ge_dec (Z.of_nat i) 143360) as [Hi|Hi].
  - destruct (index_decompose i Hi) as (t & s & j & Ht & Hs & Hj & ->).
    pose proof (sectorOrder_range s Hs).
    rewrite Hperm2, Hperm1 by assumption.
    now rewrite sectorOrder_involutive.
  - rewrite Hrest2, Hrest1 by lia. reflexivity.
Qed.

Lemma reorder_involution_witness :
  143360 <= len sampleImage
  /\ exists img',
       convertDiskImageFromProdosOrderToDos33Order sampleImage = Ok img' /\
       convertDiskImageFromProdosOrderToDos33Order img' = Ok sampleImage.
Proof.
  assert (H : 143360 <= len sampleImage) by (vm_compute; discriminate).
  split; [exact H|]. exact (reorder_involution sampleImage H).
Defined.

(** ** Strings *)

Lemma append_assoc (a b c : string) : ((a ++ b) ++ c = a ++ (b ++ c))%string.
Proof. induction a as [|x a IH]; simpl; [reflexivity | now rewrite IH]. Qed.

Lemma append_empty_r (a : string) : (a ++ "" = a)%string.
Proof. induction a as [|x a IH]; simpl; [reflexivity | now rewrite IH]. Qed.

Lemma length_append (a b : string) :
  String.length (a ++ b) = (String.length a + String.length b)%nat.
Proof. induction a as [|x a IH]; simpl; [reflexivity | now rewrite IH]. Qed.

Lemma allChars_append p (a b : string) :
  allChars p (a ++ b) = allChars p a && allChars p b.
Proof.
  induction a as [|x a IH]; simpl; [reflexivity|].
  now rewrite IH, andb_assoc.
Qed.

Lemma allChars_weaken (p q : ascii -> bool) s :
  (forall c, p c = true -> q c = true) -> allChars p s = true -> allChars q s = true.
Proof.
  intros Hpq. induction s as [|c s IH]; simpl; [reflexivity|].
  rewrite !andb_true_iff. intros [Hc Hs]. auto.
Qed.

(** ** Hexadecimal text *)

Lemma digit_cases d :
  0 <= d < 16 ->
  d = 0 \/ d = 1 \/ d = 2 \/ d = 3 \/ d = 4 \/ d = 5 \/ d = 6 \/ d = 7 \/
  d = 8 \/ d = 9 \/ d = 10 \/ d = 11 \/ d = 12 \/ d = 13 \/ d = 14 \/ d = 15.
Proof. lia. Qed.

Lemma upperHexDigit_isUpperHexDigit d : isUpperHexDigit (upperHexDigit d) = true.
Proof.
  destruct d as [|p|p]; try reflexivity.
  do 4 (try destruct p as [p|p|]); reflexivity.
Qed.

Lemma hexDigitValue_upperHexDigit d :
  0 <= d < 16 -> hexDigitValue (upperHexDigit d) = d.
Proof.
  intros H. destruct (digit_cases d H) as
    [->|[->|[->|[->|[->|[->|[->|[->|[->|[->|[->|[->|[->|[->|[->| ->]]]]]]]]]]]]]]];
    reflexivity.
Qed.

Lemma hexValueFrom_append acc (a b : string) :
  hexValueFrom acc (a ++ b) = hexValueFrom (hexValueFrom acc a) b.
Proof.
  revert acc. induction a as [|c a IH]; intros acc; simpl; [reflexivity | apply IH].
Qed.

Lemma fmtHexDigits_buf rounds u buf :
  fmtHexDigits rounds u buf = (fmtHexDigits rounds u EmptyString ++ buf)%string.
Proof.
  revert u buf. induction rounds as [|r IH]; intros u buf; simpl; [reflexivity|].
  destruct (16 <=? u); [|reflexivity].
  rewrite (IH _ (String _ buf)), (IH _ (String _ EmptyString)).
  now rewrite append_assoc.
Qed.

Lemma fmtHexDigits_chars rounds u buf :
  allChars isUpperHexDigit buf = true ->
  allChars isUpperHexDigit (fmtHexDigits rounds u buf) = true.
Proof.
  revert u buf. induction rounds as [|r IH]; intros u buf Hbuf; simpl.
  - now rewrite upperHexDigit_isUpperHexDigit.
  - destruct (16 <=? u).
    + apply IH. simpl. now rewrite upperHexDigit_isUpperHexDigit.
    + simpl. now rewrite upperHexDigit_isUpperHexDigit.
Qed.

Lemma fmtHexDigits_length rounds u buf :
  (String.length buf < String.length (fmtHexDigits rounds u buf))%nat.
Proof.
  revert u buf. induction rounds as [|r IH]; intros u buf; simpl; [lia|].
  destruct (16 <=? u); simpl; [|lia].
  specialize (IH (u / 16) (String (upperHexDigit (u mod 16)) buf)). simpl in IH. lia.
Qed.

Lemma fmtHexDigits_value rounds u :
  0 <= u < 16 ^ Z.of_nat (S rounds) ->
  hexValue (fmtHexDigits rounds u EmptyString) = u.
Proof.
  unfold hexValue. revert u. induction rounds as [|r IH]; intros u Hu.
  - simpl. rewrite hexDigitValue_upperHexDigit; lia.
  - cbn [fmtHexDigits]. destruct (16 <=? u) eqn:E.
    + apply Z.leb_le in E.
      rewrite fmtHexDigits_buf, hexValueFrom_append. rewrite IH.
      * simpl. rewrite hexDigitValue_upperHexDigit
          by (apply Z.mod_pos_bound; lia).
        pose proof (Z.div_mod u 16). lia.
      * split; [apply Z.div_pos; lia|].
        apply Z.div_lt_upper_bound; [lia|].
        rewrite <- Z.pow_succ_r by lia. rewrite <- Nat2Z.inj_succ. lia.
    + apply Z.leb_gt in E. simpl. rewrite hexDigitValue_upperHexDigit; lia.
Qed.

Lemma zeros_length k : String.length (stringsRepeat "0" k) = k.
Proof. induction k as [|k IH]; simpl; [reflexivity | now rewrite IH]. Qed.

Lemma zeros_chars k : allChars isUpperHexDigit (stringsRepeat "0" k) = true.
Proof. induction k as [|k IH]; simpl; [reflexivity | exact IH]. Qed.

Lemma zeros_value k : hexValueFrom 0 (stringsRepeat "0" k) = 0.
Proof. induction k as [|k IH]; simpl; [reflexivity | exact IH]. Qed.

(** [%02X]: upper-case digits only, at least two of them, reading back as
    the value printed. *)
Lemma sprintf_02X_chars u : allChars isUpperHexDigit (sprintf_02X u) = true.
Proof.
  unfold sprintf_02X. rewrite allChars_append, zeros_chars.
  now rewrite fmtHexDigits_chars.
Qed.

Lemma sprintf_02X_length u : (2 <= String.length (sprintf_02X u))%nat.
Proof.
  unfold sprintf_02X. rewrite length_append, zeros_length. lia.
Qed.

Lemma sprintf_02X_value u : 0 <= u <= max_int -> hexValue (sprintf_02X u) = u.
Proof.
  intros Hu. unfold sprintf_02X, hexValue.
  rewrite hexValueFrom_append, zeros_value.
  apply fmtHexDigits_value. rewrite max_int_val in Hu.
  replace (16 ^ Z.of_nat 17) with 295147905179352825856 by reflexivity. lia.
Qed.

Lemma sprintf_02X_byte b :
  String.length (sprintf_02X (byteValue b)) = 2%nat
  /\ hexValue (sprintf_02X (byteValue b)) = byteValue b.
Proof. destruct b; split; vm_compute; reflexivity. Qed.

(** ** The byte group string *)

Lemma byteWriteGroupRange_spec rest : forall n i sb,
  n = i + len rest ->
  byteWriteGroupRange n i rest sb = (sb ++ hexBytes rest)%string.
Proof.
  unfold hexBytes.
  induction rest as [|b rest IH]; intros n i sb Hn; simpl.
  - now rewrite append_empty_r.
  - unfold len in Hn. simpl length in Hn. destruct rest as [|b' rest].
    + simpl in *. replace (i =? n - 1) with true by (symmetry; apply Z.eqb_eq; lia).
      reflexivity.
    + replace (i =? n - 1) with false
        by (symmetry; apply Z.eqb_neq; simpl length in Hn; lia).
      rewrite (IH n (i + 1)) by (unfold len; simpl length in *; lia).
      now rewrite !append_assoc.
Qed.

Lemma generateByteWriteGroupStringFromBytes_spec bytes :
  generateByteWriteGroupStringFromBytes bytes = hexBytes bytes.
Proof.
  unfold generateByteWriteGroupStringFromBytes.
  now rewrite (byteWriteGroupRange_spec bytes (len bytes) 0 EmptyString) by lia.
Qed.

(** ** Decimal text *)


(** ** The output monad *)

Lemma bindO_Ok {A B} log (a : A) (k : A -> Out B) :
  bindO (log, Ok a) k = (log ++ fst (k a), snd (k a)).
Proof. simpl. now destruct (k a). Qed.

Lemma bindO_Panicked {A B} log p (k : A -> Out B) :
  bindO (log, Panicked p) k = (log, Panicked p).
Proof. reflexivity. Qed.

Lemma bindO_prefix {A B} (m : Out A) (k : A -> Out B) :
  exists rest, fst (bindO m k) = fst m ++ rest.
Proof.
  destruct m as [log [a| |]]; simpl.
  - destruct (k a) as [log' r]. now exists log'.
  - exists []. now rewrite app_nil_r.
  - exists []. now rewrite app_nil_r.
Qed.

Lemma whileO_step {S} fuel (cond : S -> bool) (body : S -> Out S) st log st' :
  cond st = true -> body st = (log, Ok st') ->
  whileO (Datatypes.S fuel) cond body st
  = (log ++ fst (whileO fuel cond body st'), snd (whileO fuel cond body st')).
Proof. intros Hc Hb. simpl. rewrite Hc, Hb. apply bindO_Ok. Qed.

Lemma whileO_exit {S} fuel (cond : S -> bool) (body : S -> Out S) st :
  cond st = false -> whileO (Datatypes.S fuel) cond body st = ([], Ok st).
Proof. intros Hc. simpl. now rewrite Hc. Qed.

(** ** One fill command *)

Lemma segment_length src pos count :
  0 <= pos -> 0 <= count -> pos + count <= len src ->
  len (segment src pos count) = count.
Proof.
  intros Hp Hc Hl. unfold segment, len in *.
  rewrite length_take, length_drop. lia.
Qed.

Lemma fill_ok src addr pos count :
  0 <= pos <= len src -> 0 <= count -> pos + count <= max_int ->
  writeCommandsToFillAppleMemorySegment src generateLineStartPad addr pos count
  = ([Stdout (commandLine addr (segment src pos count))], Ok tt).
Proof.
  intros Hpos Hcount Hmax. unfold writeCommandsToFillAppleMemorySegment.
  rewrite int_add_small by int_range.
  assert (Hslice : slice src pos
            (if pos + count >? len src then len src else pos + count)
          = Ok (segment src pos count)).
  { unfold slice, segment. destruct (pos + count >? len src) eqn:E.
    - apply Z.gtb_lt in E.
      replace ((0 <=? pos) && (pos <=? len src) && (len src <=? len src)) with true
        by (symmetry; rewrite !andb_true_iff, !Z.leb_le; lia).
      f_equal. unfold len in *.
      rewrite !take_ge by (rewrite length_drop; lia). reflexivity.
    - rewrite Z.gtb_ltb in E. apply Z.ltb_ge in E.
      replace ((0 <=? pos) && (pos <=? pos + count) && (pos + count <=? len src))
        with true by (symmetry; rewrite !andb_true_iff, !Z.leb_le; lia).
      do 3 f_equal. lia. }
  rewrite Hslice. unfold liftR. rewrite bindO_Ok.
  rewrite generateByteWriteGroupStringFromBytes_spec. reflexivity.
Qed.

(** A slice that starts beyond the end of the source panics, whatever the
    clamped end is. *)
Lemma fill_start_past_end src pad addr pos count :
  len src < pos ->
  writeCommandsToFillAppleMemorySegment src pad addr pos count
  = ([], Panicked SliceBoundsOutOfRange).
Proof.
  intros Hpos. unfold writeCommandsToFillAppleMemorySegment, slice.
  match goal with
  | |- context [(0 <=? pos) && (pos <=? ?e) && (?e <=? len src)] =>
      replace ((0 <=? pos) && (pos <=? e) && (e <=? len src)) with false
  end; [reflexivity|].
  symmetry. rewrite !andb_false_iff, !Z.leb_gt.
  destruct (int_add pos count >? len src) eqn:E; [lia|].
  rewrite Z.gtb_ltb in E. apply Z.ltb_ge in E. lia.
Qed.

(** A negative count with an end before the start panics as well. *)
Lemma fill_negative_count src pad addr pos count :
  0 <= pos <= max_int -> count < 0 -> min_int <= pos + count ->
  writeCommandsToFillAppleMemorySegment src pad addr pos count
  = ([], Panicked SliceBoundsOutOfRange).
Proof.
  intros Hpos Hcount Hmin. unfold writeCommandsToFillAppleMemorySegment, slice.
  rewrite int_add_small by int_range.
  match goal with
  | |- context [(0 <=? pos) && (pos <=? ?e) && (?e <=? len src)] =>
      replace ((0 <=? pos) && (pos <=? e) && (e <=? len src)) with false
  end; [reflexivity|].
  symmetry. rewrite !andb_false_iff, !Z.leb_gt.
  destruct (pos + count >? len src) eqn:E; [|lia].
  apply Z.gtb_lt in E. lia.
Qed.

(** ** Consecutive segments *)

Lemma segments_concat (src : list byte) pos size n :
  0 <= pos -> 0 <= size ->
  concat (map (fun i => segment src (pos + Z.of_nat i * size) size) (seq 0 n))
  = segment src pos (Z.of_nat n * size).
Proof.
  intros Hpos Hsize. induction n as [|n IH].
  - reflexivity.
  - rewrite seq_S, map_app, concat_app, IH. simpl. rewrite app_nil_r.
    unfold segment.
    replace (Z.to_nat (pos + Z.of_nat n * size))
      with (Z.to_nat pos + Z.to_nat (Z.of_nat n * size))%nat by lia.
    rewrite <- drop_drop, take_take_drop. f_equal. lia.
Qed.

(** ** The track loader *)

Lemma imap_map_seq {A B} (F : nat -> A -> B) (G : nat -> A) n :
  imap F (map G (seq 0 n)) = map (fun i => F i (G i)) (seq 0 n).
Proof.
  apply list_eq. intros i.
  rewrite list_lookup_imap, !list_lookup_fmap.
  destruct (seq 0 n !! i) as [x|] eqn:E; [|reflexivity].
  apply lookup_seq in E as [-> _]. reflexivity.
Qed.

Lemma spec_mainCommands_seq img t s :
  spec_mainCommands img t s
  = map (fun i => commandLine (0x2000 + Z.of_nat i * s)
                              (segment img (4096 * t + Z.of_nat i * s) s))
        (seq 0 (Z.to_nat (4096 / s))).
Proof. apply imap_map_seq. Qed.

Section TrackLoader.
Variables (img : list byte) (t s : Z).
Hypothesis track_range : 0 <= t <= 34.
Hypothesis size_min : 8 <= s.

Lemma loadTrackBody_first :
  4096 * t + s <= len img -> 4096 * t + s <= max_int ->
  loadTrackBody img generateLineStartPad s (4096 * t, 0, 0x2000, true)
  = (map Stdout (spec_rampCommands img t s
                 ++ [commandLine 0x2000 (segment img (4096 * t) s)]),
     Ok (int_add (4096 * t) s, int_add 0 s, int_add 0x2000 s, false)).
Proof.
  intros Hlen Hmax. unfold loadTrackBody.
  rewrite !int_sub_small by int_range.
  rewrite !fill_ok by int_range.
  unfold retO. repeat (rewrite !bindO_Ok; cbn [fst snd app]).
  unfold spec_rampCommands, spec_rampPayloads. cbn [seq map app].
  repeat (f_equal; try lia).
Qed.

Hypothesis track_present : 4096 * (t + 1) <= len img.
Variable n : nat.
Hypothesis size_divides : Z.of_nat n * s = 4096.

Lemma loadTrack_steady : forall j k fuel,
  (k + j = n)%nat -> (j < fuel)%nat ->
  whileO fuel loadTrackCond (loadTrackBody img generateLineStartPad s)
    (4096 * t + Z.of_nat k * s, Z.of_nat k * s, 0x2000 + Z.of_nat k * s, false)
  = (map Stdout
       (map (fun i => commandLine (0x2000 + Z.of_nat i * s)
                                  (segment img (4096 * t + Z.of_nat i * s) s))
            (seq k j)),
     Ok (4096 * t + 4096, 4096, 0x2000 + 4096, false)).
Proof.
  induction j as [|j IH]; intros k fuel Hk Hfuel.
  - destruct fuel as [|fuel]; [lia|].
    replace k with n by lia. rewrite size_divides.
    now rewrite whileO_exit by reflexivity.
  - destruct fuel as [|fuel]; [lia|].
    assert (Hks : Z.of_nat k * s + s <= 4096) by nia.
    erewrite whileO_step; cycle 1.
    + unfold loadTrackCond. simpl. apply Z.ltb_lt. nia.
    + unfold loadTrackBody, retO.
      rewrite fill_ok by int_range.
      rewrite !int_add_small by int_range.
      repeat (rewrite !bindO_Ok; cbn [fst snd app]). reflexivity.
    + replace (4096 * t + Z.of_nat k * s + s)
        with (4096 * t + Z.of_nat (S k) * s) by lia.
      replace (Z.of_nat k * s + s) with (Z.of_nat (S k) * s) by lia.
      replace (8192 + Z.of_nat k * s + s)
        with (0x2000 + Z.of_nat (S k) * s) by lia.
      rewrite (IH (S k) fuel) by lia. reflexivity.
Qed.
End TrackLoader.

Lemma divides_4096 s :
  8 <= s -> 4096 mod s = 0 ->
  s <= 4096 /\ Z.of_nat (Z.to_nat (4096 / s)) * s = 4096 /\ 1 <= 4096 / s <= 512.
Proof.
  intros Hs Hmod.
  assert (H4096 : 4096 = s * (4096 / s)) by (apply Z_div_exact_full_2; lia).
  assert (0 < 4096 / s) by nia.
  repeat split; nia.
Qed.

(** Below a segment size of 8 the first call of the ramp has a negative
    count: the end of its slice lies before the start. *)
Lemma loadTrack_small_segment img t s fuel :
  0 <= t <= 34 -> min_int + 8 <= s < 8 -> (0 < fuel)%nat ->
  writeCommandsToLoadDiskTrackToMemory fuel img t s
  = ([], Panicked SliceBoundsOutOfRange).
Proof.
  intros Ht Hs Hfuel. unfold writeCommandsToLoadDiskTrackToMemory.
  replace ((t <? 0) || (t >? 34)) with false
    by (symmetry; rewrite orb_false_iff, Z.ltb_ge, Z.gtb_ltb, Z.ltb_ge; lia).
  rewrite diskImageStartPos_small by lia.
  destruct fuel as [|fuel]; [lia|]. cbn [whileO fst snd].
  replace (0 <? 4096) with true by reflexivity.
  unfold loadTrackBody.
  rewrite int_sub_small by int_range.
  rewrite (fill_negative_count img _ _ _ (s - 8)) by int_range.
  reflexivity.
Qed.

(** The whole output of the track loader on a track that is present, for a
    segment size of at least 8 that divides 4096. *)
Lemma loadTrack_output img t s fuel :
  0 <= t <= 34 -> 4096 * (t + 1) <= len img ->
  8 <= s -> 4096 mod s = 0 -> (Z.to_nat (4096 / s) < fuel)%nat ->
  writeCommandsToLoadDiskTrackToMemory fuel img t s
  = (map Stdout (spec_rampCommands img t s ++ spec_mainCommands img t s), Ok tt).
Proof.
  intros Ht Hlen Hs Hmod Hfuel.
  destruct (divides_4096 s Hs Hmod) as (Hs' & Hn & Hq).
  unfold writeCommandsToLoadDiskTrackToMemory.
  replace ((t <? 0) || (t >? 34)) with false
    by (symmetry; rewrite orb_false_iff, Z.ltb_ge, Z.gtb_ltb, Z.ltb_ge; lia).
  rewrite diskImageStartPos_small by lia.
  replace (4096 * t + 256 * 0) with (4096 * t) by lia.
  destruct fuel as [|fuel]; [lia|].
  change (fun st : Z * Z * Z * bool => snd (fst (fst st)) <? 4096) with loadTrackCond.
  erewrite whileO_step; cycle 1.
  - reflexivity.
  - apply loadTrackBody_first; try assumption; int_range.
  - rewrite !int_add_small by int_range.
    rewrite spec_mainCommands_seq.
    destruct (Z.to_nat (4096 / s)) as [|m] eqn:Hm; [lia|].
    pose proof (loadTrack_steady img t s Ht Hs Hlen (S m) Hn
                  m 1%nat fuel ltac:(lia) ltac:(lia)) as Hst.
    replace (4096 * t + Z.of_nat 1 * s) with (4096 * t + s) in Hst by lia.
    replace (Z.of_nat 1 * s) with (0 + s) in Hst by lia.
    replace (8192 + (0 + s)) with (8192 + s) in Hst by lia.
    rewrite Hst. cbn [fst snd]. rewrite bindO_Ok. cbn [fst snd retO].
    f_equal. rewrite app_nil_r, <- map_app. f_equal.
    rewrite <- app_assoc. f_equal.
    cbn [seq map app]. do 2 f_equal. f_equal; lia.
Qed.

(** ** The client program loader *)

Lemma segmentCount_bounds total s :
  0 < total -> 0 < s ->
  (Z.of_nat (segmentCount total s) - 1) * s < total <= Z.of_nat (segmentCount total s) * s.
Proof.
  intros Ht Hs. unfold segmentCount.
  pose proof (Z.div_mod (total + s - 1) s ltac:(lia)) as Hdm.
  pose proof (Z.mod_pos_bound (total + s - 1) s Hs) as Hr.
  assert (0 <= (total + s - 1) / s) by (apply Z.div_pos; lia).
  rewrite Z2Nat.id by assumption. nia.
Qed.

Section ClientLoader.
Variables (prog : list byte) (s : Z).
Hypothesis prog_nonempty : 0 < len prog.
Hypothesis prog_small : len prog <= 0x10000.
Hypothesis size_pos : 0 < s.

Lemma loadClient_steady :
  0x0C00 + len prog + s <= max_int -> forall j k fuel,
  (k + j = segmentCount (len prog) s)%nat -> (j < fuel)%nat ->
  exists final,
  whileO fuel (loadClientCond (len prog))
    (loadClientBody prog generateLineStartPad s)
    (Z.of_nat k * s, Z.of_nat k * s, 0x0C00 + Z.of_nat k * s)
  = (map Stdout
       (map (fun i => commandLine (0x0C00 + Z.of_nat i * s)
                                  (segment prog (Z.of_nat i * s) s))
            (seq k j)),
     Ok final).
Proof.
  intros Hmax.
  pose proof (segmentCount_bounds (len prog) s prog_nonempty size_pos) as Hn.
  induction j as [|j IH]; intros k fuel Hk Hfuel.
  - destruct fuel as [|fuel]; [lia|]. eexists.
    rewrite whileO_exit; [reflexivity|].
    unfold loadClientCond. simpl. apply Z.ltb_ge.
    replace k with (segmentCount (len prog) s) by lia. lia.
  - destruct fuel as [|fuel]; [lia|].
    assert (Hks : Z.of_nat k * s < len prog) by nia.
    destruct (IH (S k) fuel ltac:(lia) ltac:(lia)) as [final Hrun].
    exists final.
    erewrite whileO_step; cycle 1.
    + unfold loadClientCond. simpl. apply Z.ltb_lt. lia.
    + unfold loadClientBody, retO.
      rewrite fill_ok by int_range.
      rewrite !int_add_small by int_range.
      repeat (rewrite !bindO_Ok; cbn [fst snd app]). reflexivity.
    + replace (Z.of_nat k * s + s) with (Z.of_nat (S k) * s) by lia.
      replace (3072 + Z.of_nat k * s + s)
        with (0x0C00 + Z.of_nat (S k) * s) by lia.
      rewrite Hrun. reflexivity.
Qed.

(** A segment that holds the whole program: one command, whatever the
    additions after it wrap to. *)
Lemma loadClient_single fuel :
  len prog <= s <= max_int -> (1 < fuel)%nat ->
  exists final,
  whileO fuel (loadClientCond (len prog))
    (loadClientBody prog generateLineStartPad s) (0, 0, 0x0C00)
  = ([Stdout (commandLine 0x0C00 (segment prog 0 s))], Ok final).
Proof.
  intros Hs Hfuel. destruct fuel as [|[|fuel]]; try lia.
  eexists. erewrite whileO_step; cycle 1.
  - unfold loadClientCond. simpl. apply Z.ltb_lt. lia.
  - unfold loadClientBody, retO.
    rewrite fill_ok by int_range.
    repeat (rewrite !bindO_Ok; cbn [fst snd app]). reflexivity.
  - rewrite whileO_exit; [reflexivity|].
    unfold loadClientCond. simpl. apply Z.ltb_ge.
    rewrite int_add_small by int_range. lia.
Qed.

Lemma loadClient_loop fuel :
  s <= max_int -> (segmentCount (len prog) s < fuel)%nat ->
  exists final,
  whileO fuel (loadClientCond (len prog))
    (loadClientBody prog generateLineStartPad s) (0, 0, 0x0C00)
  = (map Stdout (spec_clientCommands prog s), Ok final).
Proof.
  intros Hmax Hfuel. unfold spec_clientCommands, spec_clientPayloads.
  rewrite imap_map_seq.
  pose proof (segmentCount_bounds (len prog) s prog_nonempty size_pos) as Hn.
  destruct (Z_le_gt_dec (len prog) s) as [Hbig|Hsmall].
  - assert (Hone : segmentCount (len prog) s = 1%nat) by nia.
    rewrite Hone in *.
    destruct (loadClient_single fuel ltac:(lia) Hfuel) as [final Hrun].
    exists final. rewrite Hrun. reflexivity.
  - destruct (loadClient_steady ltac:(int_range)
                (segmentCount (len prog) s) 0%nat fuel)
      as [final Hrun]; [lia | lia |].
    exists final. exact Hrun.
Qed.
End ClientLoader.

Lemma trackNumArray_lookup (k : nat) :
  (k < 35)%nat ->
  exists b, trackNumArray !! k = Some b /\ byteValue b = Z.of_nat k.
Proof.
  intros Hk.
  do 35 (destruct k as [|k]; [eexists; split; reflexivity|]). lia.
Qed.

Lemma clientProgram_length b : len (clientProgram b) = 52.
Proof. reflexivity. Qed.

Lemma clientProgram_parameter b b' :
  clientProgram b !! trackParameterOffset = Some b
  /\ forall i, i <> trackParameterOffset ->
        clientProgram b !! i = clientProgram b' !! i.
Proof.
  split; [reflexivity|]. intros i Hi. unfold trackParameterOffset in Hi.
  do 53 (destruct i as [|i]; [reflexivity || lia|]). reflexivity.
Qed.

(** The whole output of the client program loader. *)
Lemma loadClient_output t s fuel :
  0 <= t <= 34 -> 0 < s <= max_int -> (segmentCount 52 s < fuel)%nat ->
  exists b,
    trackNumArray !! Z.to_nat t = Some b /\ byteValue b = t /\
    writeCommandsToLoadRWTSClientProgramToMemory fuel t s
    = (map Stdout (spec_clientCommands (clientProgram b) s), Ok tt).
Proof.
  intros Ht Hs Hfuel.
  destruct (trackNumArray_lookup (Z.to_nat t) ltac:(lia)) as (b & Hb & Hv).
  exists b. split; [exact Hb|]. split; [lia|].
  unfold writeCommandsToLoadRWTSClientProgramToMemory.
  rewrite (getIndex_ok _ _ b) by (lia || exact Hb).
  unfold liftR. rewrite bindO_Ok. cbn [fst snd app].
  destruct (loadClient_loop (clientProgram b) s) with (fuel := fuel)
    as [final Hrun]; try (rewrite ?clientProgram_length; lia).
  change (fun st : Z * Z * Z => snd (fst st) <? len (clientProgram b))
    with (loadClientCond (len (clientProgram b))).
  rewrite Hrun. rewrite bindO_Ok. cbn [fst snd retO]. now rewrite app_nil_r.
Qed.

(** ** What every run writes and how it can fail *)

Lemma stdoutOf_app log1 log2 :
  stdoutOf (log1 ++ log2) = stdoutOf log1 ++ stdoutOf log2.
Proof.
  induction log1 as [|[text|text] log1 IH]; simpl; [reflexivity| |assumption].
  now rewrite IH.
Qed.

Section Respects.
Variables (P : string -> Prop) (Q : panic -> Prop).

Lemma respects_ret {A} (a : A) : respects P Q (retO a).
Proof. split; [constructor | discriminate]. Qed.

Lemma respects_bind {A B} (m : Out A) (k : A -> Out B) :
  respects P Q m -> (forall a, respects P Q (k a)) -> respects P Q (bindO m k).
Proof.
  unfold respects. intros [Hm Hp] Hk. destruct m as [log [a| p |]]; simpl in *.
  - destruct (Hk a) as [Hka Hkp]. destruct (k a) as [log' r]. simpl in *.
    split; [|assumption]. rewrite stdoutOf_app. apply Forall_app. auto.
  - split; [assumption|]. intros p' [= <-]. now apply Hp.
  - split; [assumption | discriminate].
Qed.

Lemma respects_while {S} (cond : S -> bool) (body : S -> Out S) :
  (forall st, respects P Q (body st)) ->
  forall fuel st, respects P Q (whileO fuel cond body st).
Proof.
  intros Hbody. induction fuel as [|fuel IH]; intros st; simpl.
  - split; [constructor | discriminate].
  - destruct (cond st); [|apply respects_ret].
    apply respects_bind; [apply Hbody | apply IH].
Qed.

Lemma respects_printf text : P text -> respects P Q (printf text).
Proof. intros H. split; [repeat constructor; assumption | discriminate]. Qed.

Lemma respects_stderr text : respects P Q (fprintf_stderr text).
Proof. split; [constructor | discriminate]. Qed.

Lemma respects_liftR {A} (r : Result A) :
  (forall p, r = Panicked p -> Q p) -> respects P Q (liftR r).
Proof. intros H. split; [constructor | exact H]. Qed.

Lemma respects_panic {A} p : Q p -> respects P Q (@panicO A p).
Proof. intros H. split; [constructor|]. intros p' [= <-]. exact H. Qed.
End Respects.

Lemma upperHexDigit_commandChar c :
  isUpperHexDigit c = true -> isCommandChar c = true.
Proof. unfold isCommandChar. intros ->. reflexivity. Qed.

Lemma commandChar_notLineBreak c :
  isCommandChar c = true -> notLineBreak c = true.
Proof. destruct c as [[] [] [] [] [] [] [] []]; vm_compute; congruence. Qed.

Lemma generateMemoryAddress_chars addr :
  allChars isUpperHexDigit (generateMemoryAddress addr) = true.
Proof.
  unfold generateMemoryAddress. destruct (addr <? 0); [reflexivity|].
  apply sprintf_02X_chars.
Qed.

Lemma hexBytes_chars bytes : allChars isCommandChar (hexBytes bytes) = true.
Proof.
  unfold hexBytes. induction bytes as [|b bytes IH]; [reflexivity|].
  cbn [map String.concat]. destruct (map _ bytes) eqn:E.
  - apply (allChars_weaken isUpperHexDigit); [apply upperHexDigit_commandChar|].
    apply sprintf_02X_chars.
  - rewrite !allChars_append, IH.
    rewrite (allChars_weaken isUpperHexDigit isCommandChar);
      [reflexivity | apply upperHexDigit_commandChar | apply sprintf_02X_chars].
Qed.

Lemma slice_panic src low high p :
  slice src low high = Panicked p -> p = SliceBoundsOutOfRange.
Proof. unfold slice. destruct (_ && _); [discriminate | now intros [= <-]]. Qed.

Lemma getIndex_panic l i p : getIndex l i = Panicked p -> p = IndexOutOfRange.
Proof.
  unfold getIndex. destruct (_ || _); [now intros [= <-]|].
  destruct (l !! Z.to_nat i); [discriminate | now intros [= <-]].
Qed.

(** The encoder, called with the pad, writes one well-formed line or
    panics on its slice expression. *)
Lemma fill_respects src addr pos count :
  respects wellFormedLine (fun p => p = SliceBoundsOutOfRange)
    (writeCommandsToFillAppleMemorySegment src generateLineStartPad addr pos count).
Proof.
  unfold writeCommandsToFillAppleMemorySegment.
  apply respects_bind.
  - apply respects_liftR. intros p. apply slice_panic.
  - intros bytes. apply respects_printf.
    exists (generateMemoryAddress addr ++ ":"
            ++ generateByteWriteGroupStringFromBytes bytes)%string.
    split; [now rewrite !append_assoc|].
    rewrite !allChars_append, generateByteWriteGroupStringFromBytes_spec.
    rewrite (allChars_weaken _ _ _ commandChar_notLineBreak (hexBytes_chars bytes)).
    rewrite (allChars_weaken isUpperHexDigit notLineBreak);
      [reflexivity | | apply generateMemoryAddress_chars].
    intros c Hc. now apply commandChar_notLineBreak, upperHexDigit_commandChar.
Qed.

Lemma loadTrackBody_respects img s st :
  respects wellFormedLine (fun p => p = SliceBoundsOutOfRange)
    (loadTrackBody img generateLineStartPad s st).
Proof.
  destruct st as [[[pos bw] addr] first]. unfold loadTrackBody.
  apply respects_bind.
  - destruct first; [|apply respects_ret].
    repeat (apply respects_bind; [apply fill_respects | intros _]).
    apply respects_ret.
  - intros first'. apply respects_bind; [apply fill_respects | intros _].
    apply respects_ret.
Qed.

Lemma loadClientBody_respects prog s st :
  respects wellFormedLine (fun p => p = SliceBoundsOutOfRange)
    (loadClientBody prog generateLineStartPad s st).
Proof.
  destruct st as [[pos bw] addr]. unfold loadClientBody.
  apply respects_bind; [apply fill_respects | intros _]. apply respects_ret.
Qed.

Lemma respects_weaken {A} (P : string -> Prop) (Q Q' : panic -> Prop) (m : Out A) :
  (forall p, Q p -> Q' p) -> respects P Q m -> respects P Q' m.
Proof. intros H [H1 H2]. split; auto. Qed.

Lemma loadTrack_respects fuel img t s :
  respects wellFormedLine
    (fun p => p = SliceBoundsOutOfRange
              \/ (p = PanicMessage (illegalTrackMessage t) /\ (t < 0 \/ 34 < t)))
    (writeCommandsToLoadDiskTrackToMemory fuel img t s).
Proof.
  unfold writeCommandsToLoadDiskTrackToMemory.
  destruct ((t <? 0) || (t >? 34)) eqn:E.
  - apply respects_panic. right. split; [reflexivity|].
    apply orb_true_iff in E as [E|E]; [apply Z.ltb_lt in E | apply Z.gtb_lt in E]; lia.
  - apply respects_bind; [|intros; apply respects_ret].
    apply (respects_weaken _ (fun p => p = SliceBoundsOutOfRange)); [auto|].
    apply respects_while. apply loadTrackBody_respects.
Qed.

Lemma loadClient_respects fuel t s :
  respects wellFormedLine
    (fun p => p = SliceBoundsOutOfRange \/ p = IndexOutOfRange)
    (writeCommandsToLoadRWTSClientProgramToMemory fuel t s).
Proof.
  unfold writeCommandsToLoadRWTSClientProgramToMemory.
  apply respects_bind.
  - apply respects_liftR. intros p Hp. right. now apply getIndex_panic in Hp.
  - intros b. apply respects_bind; [|intros; apply respects_ret].
    apply (respects_weaken _ (fun p => p = SliceBoundsOutOfRange)); [auto|].
    apply respects_while. apply loadClientBody_respects.
Qed.

Lemma executeClient_respects t :
  respects wellFormedLine (fun _ => False) (executeClient t).
Proof.
  unfold executeClient. apply respects_bind; [apply respects_stderr | intros _].
  apply respects_printf. exists "C00G"%string. split; reflexivity.
Qed.

Lemma sampleImage_length : len sampleImage = 143360.
Proof. vm_compute. reflexivity. Qed.

(** ** The ramp *)

(** C2 (amended): for a track [t] in [0,34], a segment size [s] of at least
    8 and an image that holds the first [s] bytes of the track, the first
    nine commands the track loader writes are the ramp: each has the address
    0x2000 and carries bytes from the start of sector 0 of the track, and
    their byte counts are [s - 8], [s - 7], ..., [s], in that order. *)
Theorem ramp_commands_precede_transfer (img : list byte) (t s : Z) (fuel : nat) :
  0 <= t <= 34 -> 8 <= s ->
  4096 * t + s <= len img -> len img <= max_int -> (0 < fuel)%nat ->
  (exists rest,
     fst (writeCommandsToLoadDiskTrackToMemory fuel img t s)
     = map Stdout (spec_rampCommands img t s) ++ rest)
  /\ map len (spec_rampPayloads img t s)
     = [s - 8; s - 7; s - 6; s - 5; s - 4; s - 3; s - 2; s - 1; s].
Proof.
  intros Ht Hs Hlen Hmax Hfuel. split.
  - unfold writeCommandsToLoadDiskTrackToMemory.
    replace ((t <? 0) || (t >? 34)) with false
      by (symmetry; rewrite orb_false_iff, Z.ltb_ge, Z.gtb_ltb, Z.ltb_ge; lia).
    rewrite diskImageStartPos_small by lia.
    replace (4096 * t + 256 * 0) with (4096 * t) by lia.
    destruct fuel as [|fuel]; [lia|].
    match goal with
    | |- context [bindO ?m ?k] => destruct (bindO_prefix m k) as [rest1 ->]
    end.
    erewrite whileO_step; cycle 1.
    + reflexivity.
    + apply loadTrackBody_first; try assumption; lia.
    + cbn [fst]. rewrite map_app, <- !app_assoc. eexists. reflexivity.
  - unfold spec_rampPayloads. cbn [seq map].
    rewrite !segment_length by lia. repeat (f_equal; try lia).
Qed.

Lemma ramp_commands_precede_transfer_witness :
  (0 <= 3 <= 34 /\ 8 <= 8 /\ 4096 * 3 + 8 <= len sampleImage
   /\ len sampleImage <= max_int /\ (0 < 1)%nat)
  /\ (exists rest,
        fst (writeCommandsToLoadDiskTrackToMemory 1 sampleImage 3 8)
        = map Stdout (spec_rampCommands sampleImage 3 8) ++ rest)
  /\ map len (spec_rampPayloads sampleImage 3 8) = [0; 1; 2; 3; 4; 5; 6; 7; 8].
Proof.
  assert (H1 : 0 <= 3 <= 34) by lia.
  assert (H2 : 8 <= 8) by lia.
  assert (H3 : 4096 * 3 + 8 <= len sampleImage) by (vm_compute; discriminate).
  assert (H4 : len sampleImage <= max_int) by (vm_compute; discriminate).
  assert (H5 : (0 < 1)%nat) by lia.
  split; [repeat split; assumption || lia|].
  exact (ramp_commands_precede_transfer sampleImage 3 8 1 H1 H2 H3 H4 H5).
Defined.

(** Segment size 4 on a full image: the first ramp call asks for a negative
    count, and the loader panics before anything is written. *)
Lemma ramp_needs_segment_of_eight :
  writeCommandsToLoadDiskTrackToMemory 4097 sampleImage 0 4
  = ([], Panicked SliceBoundsOutOfRange)
  /\ ~ (exists rest,
          fst (writeCommandsToLoadDiskTrackToMemory 4097 sampleImage 0 4)
          = map Stdout (spec_rampCommands sampleImage 0 4) ++ rest).
Proof.
  assert (Hrun : writeCommandsToLoadDiskTrackToMemory 4097 sampleImage 0 4
                 = ([], Panicked SliceBoundsOutOfRange))
    by (vm_compute; reflexivity).
  split; [exact Hrun|]. rewrite Hrun. intros [rest H].
  unfold spec_rampCommands, spec_rampPayloads in H. cbn [seq map app fst] in H.
  discriminate H.
Qed.

(** ** Counting the commands *)

(** C3 (amended): for a track [t] in [0,34] that the image holds in full
    and a segment size [s] of at least 8 that divides 4096, the track loader
    writes exactly 9 ramp commands followed by exactly [4096 / s] main
    commands, and returns. *)
Theorem track_loader_command_count (img : list byte) (t s : Z) (fuel : nat) :
  0 <= t <= 34 -> 4096 * (t + 1) <= len img ->
  8 <= s -> 4096 mod s = 0 -> (Z.to_nat (4096 / s) < fuel)%nat ->
  writeCommandsToLoadDiskTrackToMemory fuel img t s
  = (map Stdout (spec_rampCommands img t s ++ spec_mainCommands img t s), Ok tt)
  /\ length (spec_rampCommands img t s) = 9%nat
  /\ len (spec_mainCommands img t s) = 4096 / s.
Proof.
  intros Ht Hlen Hs Hmod Hfuel.
  split; [now apply loadTrack_output|]. split; [reflexivity|].
  rewrite spec_mainCommands_seq. unfold len. rewrite length_map, length_seq.
  destruct (divides_4096 s Hs Hmod) as (_ & _ & Hq). lia.
Qed.

Lemma track_loader_command_count_witness :
  (0 <= 0 <= 34 /\ 4096 * (0 + 1) <= len sampleImage /\ 8 <= 16
   /\ 4096 mod 16 = 0 /\ (Z.to_nat (4096 / 16) < 300)%nat)
  /\ writeCommandsToLoadDiskTrackToMemory 300 sampleImage 0 16
     = (map Stdout (spec_rampCommands sampleImage 0 16
                    ++ spec_mainCommands sampleImage 0 16), Ok tt)
  /\ length (spec_rampCommands sampleImage 0 16) = 9%nat
  /\ len (spec_mainCommands sampleImage 0 16) = 4096 / 16.
Proof.
  assert (H1 : 0 <= 0 <= 34) by lia.
  assert (H2 : 4096 * (0 + 1) <= len sampleImage) by (vm_compute; discriminate).
  assert (H3 : 8 <= 16) by lia.
  assert (H4 : 4096 mod 16 = 0) by reflexivity.
  assert (H5 : (Z.to_nat (4096 / 16) < 300)%nat) by (vm_compute; lia).
  split; [repeat split; assumption || lia|].
  exact (track_loader_command_count sampleImage 0 16 300 H1 H2 H3 H4 H5).
Defined.

(** With segment size 8 the loader writes 512 + 9 lines, not 512 + 8; with
    segment size 4, which divides 4096, it panics with nothing written. *)
Lemma track_loader_count_is_not_eight_more :
  (snd (writeCommandsToLoadDiskTrackToMemory 1000 sampleTrack 0 8) = Ok tt
   /\ len (stdoutOf (fst (writeCommandsToLoadDiskTrackToMemory 1000 sampleTrack 0 8)))
      = 4096 / 8 + 9
   /\ 4096 / 8 + 9 <> 4096 / 8 + 8)
  /\ (4096 mod 4 = 0
      /\ writeCommandsToLoadDiskTrackToMemory 4097 sampleImage 0 4
         = ([], Panicked SliceBoundsOutOfRange)).
Proof.
  split; [split; [|split]|split].
  - vm_compute. reflexivity.
  - vm_compute. reflexivity.
  - discriminate.
  - reflexivity.
  - vm_compute. reflexivity.
Qed.

(** ** The steady state *)

Lemma spec_mainPayloads_facts (img : list byte) (t s : Z) :
  0 <= t <= 34 -> 4096 * (t + 1) <= len img -> 8 <= s -> 4096 mod s = 0 ->
  concat (spec_mainPayloads img t s) = segment img (4096 * t) 4096
  /\ len (segment img (4096 * t) 4096) = 4096
  /\ Forall (fun payload => len payload = s) (spec_mainPayloads img t s).
Proof.
  intros Ht Hlen Hs Hmod.
  destruct (divides_4096 s Hs Hmod) as (Hs' & Hn & Hq).
  unfold spec_mainPayloads. split; [|split].
  - rewrite segments_concat by lia. now rewrite Hn.
  - apply segment_length; lia.
  - apply Forall_fmap, Forall_seq. intros i Hi. simpl.
    apply segment_length; nia.
Qed.

(** C4: for a track [t] in [0,34] that the image holds in full and a
    segment size [s] of at least 8 that divides 4096 (the program's 8 among
    them), the main commands written after the ramp carry [s] bytes each,
    command [i] storing the bytes at offset [4096 t + i s] of the image at
    address [0x2000 + i s]; their payloads, concatenated in order, are the
    4096 bytes of the image from sector 0 of track [t].  The bound on [s]
    is needed: see [main_commands_need_segment_of_eight]. *)
Theorem main_commands_reproduce_track (img : list byte) (t s : Z) (fuel : nat) :
  0 <= t <= 34 -> 4096 * (t + 1) <= len img ->
  8 <= s -> 4096 mod s = 0 -> (Z.to_nat (4096 / s) < fuel)%nat ->
  writeCommandsToLoadDiskTrackToMemory fuel img t s
  = (map Stdout (spec_rampCommands img t s ++ spec_mainCommands img t s),
     Ok tt)
  /\ concat (spec_mainPayloads img t s) = segment img (4096 * t) 4096
  /\ len (segment img (4096 * t) 4096) = 4096
  /\ Forall (fun payload => len payload = s) (spec_mainPayloads img t s).
Proof.
  intros Ht Hlen Hs Hmod Hfuel. split.
  - now apply loadTrack_output.
  - now apply spec_mainPayloads_facts.
Qed.

Lemma main_commands_reproduce_track_witness :
  (0 <= 34 <= 34 /\ 4096 * (34 + 1) <= len sampleImage /\ 8 <= 8
   /\ 4096 mod 8 = 0 /\ (Z.to_nat (4096 / 8) < 513)%nat)
  /\ writeCommandsToLoadDiskTrackToMemory 513 sampleImage 34 8
     = (map Stdout (spec_rampCommands sampleImage 34 8
                    ++ spec_mainCommands sampleImage 34 8), Ok tt)
  /\ concat (spec_mainPayloads sampleImage 34 8) = segment sampleImage (4096 * 34) 4096
  /\ len (segment sampleImage (4096 * 34) 4096) = 4096
  /\ Forall (fun payload => len payload = 8) (spec_mainPayloads sampleImage 34 8).
Proof.
  assert (H1 : 0 <= 34 <= 34) by lia.
  assert (H2 : 4096 * (34 + 1) <= len sampleImage) by (vm_compute; discriminate).
  assert (H3 : 8 <= 8) by lia.
  assert (H4 : 4096 mod 8 = 0) by reflexivity.
  assert (H5 : (Z.to_nat (4096 / 8) < 513)%nat) by (vm_compute; lia).
  split; [repeat split; assumption || lia|].
  exact (main_commands_reproduce_track sampleImage 34 8 513 H1 H2 H3 H4 H5).
Defined.

(** Segment size 4 divides 4096 and the image holds track 0 in full, yet
    no main command is written: the first ramp call asks for a negative
    count and the loader panics with nothing on standard output, the 4096
    bytes of the track untransferred. *)
Lemma main_commands_need_segment_of_eight :
  (0 <= 0 <= 34 /\ 4096 * (0 + 1) <= len sampleTrack /\ 4096 mod 4 = 0)
  /\ writeCommandsToLoadDiskTrackToMemory 4097 sampleTrack 0 4
     = ([], Panicked SliceBoundsOutOfRange)
  /\ stdoutOf (fst (writeCommandsToLoadDiskTrackToMemory 4097 sampleTrack 0 4))
     = []
  /\ writeCommandsToLoadDiskTrackToMemory 4097 sampleTrack 0 4
     <> (map Stdout (spec_rampCommands sampleTrack 0 4
                     ++ spec_mainCommands sampleTrack 0 4), Ok tt)
  /\ len (segment sampleTrack (4096 * 0) 4096) = 4096.
Proof.
  assert (Hrun : writeCommandsToLoadDiskTrackToMemory 4097 sampleTrack 0 4
                 = ([], Panicked SliceBoundsOutOfRange))
    by (vm_compute; reflexivity).
  split; [split; [lia | split; [vm_compute; discriminate | reflexivity]]|].
  split; [exact Hrun|]. rewrite Hrun.
  split; [reflexivity|]. split; [discriminate | vm_compute; reflexivity].
Qed.

(** The first command after the ramp, on a track of cyclic bytes. *)
Example first_main_command :
  nth 9 (stdoutOf (fst (writeCommandsToLoadDiskTrackToMemory 513 sampleTrack 0 8)))
        EmptyString
  = (generateLineStartPad ++ "2000:00 01 02 03 04 05 06 07" ++ CR)%string.
Proof. vm_compute. reflexivity. Qed.

(** ** Short sources *)

(** When the end of the requested range lies beyond the source and the
    start does not, the count is clamped. *)
Lemma fill_clamps_count src addr pos count :
  0 <= pos <= len src -> 0 <= count -> pos + count <= max_int ->
  len src < pos + count ->
  writeCommandsToFillAppleMemorySegment src generateLineStartPad addr pos count
  = ([Stdout (commandLine addr (drop (Z.to_nat pos) src))], Ok tt).
Proof.
  intros Hpos Hcount Hmax Hover. rewrite fill_ok by assumption.
  unfold segment. rewrite take_ge; [reflexivity|].
  unfold len in *. rewrite length_drop. lia.
Qed.

(** C5: a call of the encoder whose range ends beyond the source.  On a
    source of ten bytes, the call for 8 bytes from offset 16 does not clamp:
    it panics on its slice expression.  The track loader makes this call on
    a ten-byte image, after eleven lines. *)
Theorem fill_aborts_past_end_of_source :
  len truncatedImage < 16 + 8
  /\ writeCommandsToFillAppleMemorySegment truncatedImage generateLineStartPad
       0x2010 16 8
     = ([], Panicked SliceBoundsOutOfRange)
  /\ snd (writeCommandsToLoadDiskTrackToMemory 513 truncatedImage 0 8)
     = Panicked SliceBoundsOutOfRange
  /\ len (stdoutOf (fst (writeCommandsToLoadDiskTrackToMemory 513 truncatedImage 0 8)))
     = 11.
Proof. repeat split; vm_compute; reflexivity. Qed.

(** ** Rendering *)

(** C6: an address below zero is rendered as the empty string; an address
    from zero on as upper-case hexadecimal digits only (so no "0x"), at
    least two of them, that read back as the address (0x2000 gives "2000");
    the bytes as two upper-case hexadecimal digits each, separated by single
    spaces, with nothing after the last byte ([0x00,0x01,0xFF] gives
    "00 01 FF", [0xAB] gives "AB"). *)
Theorem address_and_bytes_rendering :
  (forall addr, addr < 0 -> generateMemoryAddress addr = EmptyString)
  /\ (forall addr, 0 <= addr <= max_int ->
        allChars isUpperHexDigit (generateMemoryAddress addr) = true
        /\ (2 <= String.length (generateMemoryAddress addr))%nat
        /\ hexValue (generateMemoryAddress addr) = addr)
  /\ generateMemoryAddress 0x2000 = "2000"%string
  /\ generateMemoryAddress (-1) = EmptyString
  /\ (forall bytes,
        generateByteWriteGroupStringFromBytes bytes
        = String.concat " " (map (fun b => sprintf_02X (byteValue b)) bytes))
  /\ (forall b,
        String.length (sprintf_02X (byteValue b)) = 2%nat
        /\ allChars isUpperHexDigit (sprintf_02X (byteValue b)) = true
        /\ hexValue (sprintf_02X (byteValue b)) = byteValue b)
  /\ generateByteWriteGroupStringFromBytes [x00; x01; xff] = "00 01 FF"%string
  /\ generateByteWriteGroupStringFromBytes [xab] = "AB"%string.
Proof.
  split; [|split; [|split; [|split; [|split; [|split; [|split]]]]]].
  - intros addr Haddr. unfold generateMemoryAddress.
    now replace (addr <? 0) with true by (symmetry; apply Z.ltb_lt; lia).
  - intros addr Haddr. unfold generateMemoryAddress.
    replace (addr <? 0) with false by (symmetry; apply Z.ltb_ge; lia).
    split; [apply sprintf_02X_chars|].
    split; [apply sprintf_02X_length | now apply sprintf_02X_value].
  - reflexivity.
  - reflexivity.
  - intros bytes. apply generateByteWriteGroupStringFromBytes_spec.
  - intros b. destruct (sprintf_02X_byte b) as [Hl Hv].
    split; [exact Hl|]. split; [apply sprintf_02X_chars | exact Hv].
  - reflexivity.
  - reflexivity.
Qed.

Lemma address_and_bytes_rendering_witness :
  generateMemoryAddress (-7) = EmptyString
  /\ (allChars isUpperHexDigit (generateMemoryAddress 0x0C00) = true
      /\ (2 <= String.length (generateMemoryAddress 0x0C00))%nat
      /\ hexValue (generateMemoryAddress 0x0C00) = 0x0C00).
Proof.
  destruct address_and_bytes_rendering as (Hneg & Hpos & _).
  split.
  - apply Hneg. lia.
  - apply Hpos. rewrite max_int_val. lia.
Defined.

(** ** The range check *)




Example illegalTrackMessage_35 :
  illegalTrackMessage 35
  = ("illegal track number encountered: 35" ++ LF)%string.
Proof. reflexivity. Qed.

Example illegalTrackMessage_negative :
  illegalTrackMessage (-1)
  = ("illegal track number encountered: -1" ++ LF)%string.
Proof. reflexivity. Qed.

(** ** The client program *)

(** C8: for a track [t] in [0,34] and a positive segment size, the client
    program loader writes the 52 bytes of the client program, whose byte at
    the track parameter offset has the value [t] and whose other bytes do
    not depend on the track, in segments of [s] bytes, command [i] at
    address [0x0C00 + i s], and nothing else (no ramp). *)
Theorem client_program_loader_output (t s : Z) (fuel : nat) :
  0 <= t <= 34 -> 0 < s <= max_int -> (segmentCount 52 s < fuel)%nat ->
  exists trackNumByte,
    writeCommandsToLoadRWTSClientProgramToMemory fuel t s
    = (map Stdout (spec_clientCommands (clientProgram trackNumByte) s), Ok tt)
    /\ byteValue trackNumByte = t
    /\ clientProgram trackNumByte !! trackParameterOffset = Some trackNumByte
    /\ (forall other i, i <> trackParameterOffset ->
          clientProgram trackNumByte !! i = clientProgram other !! i)
    /\ len (clientProgram trackNumByte) = 52
    /\ concat (spec_clientPayloads (clientProgram trackNumByte) s)
       = clientProgram trackNumByte.
Proof.
  intros Ht Hs Hfuel.
  destruct (loadClient_output t s fuel Ht Hs Hfuel) as (b & _ & Hv & Hrun).
  exists b. split; [exact Hrun|]. split; [exact Hv|].
  split; [exact (proj1 (clientProgram_parameter b b))|].
  split; [intros other; exact (proj2 (clientProgram_parameter b other))|].
  split; [reflexivity|].
  unfold spec_clientPayloads.
  pose proof (segmentCount_bounds (len (clientProgram b)) s
                ltac:(rewrite clientProgram_length; lia) ltac:(lia)) as Hn.
  rewrite clientProgram_length in *.
  rewrite (map_ext _ (fun i => segment (clientProgram b) (0 + Z.of_nat i * s) s))
    by reflexivity.
  rewrite segments_concat by lia. unfold segment. simpl drop.
  apply take_ge. pose proof (clientProgram_length b) as Hl. unfold len in Hl. lia.
Qed.

Lemma client_program_loader_output_witness :
  (0 <= 5 <= 34 /\ 0 < 8 <= max_int /\ (segmentCount 52 8 < 8)%nat)
  /\ exists trackNumByte,
       writeCommandsToLoadRWTSClientProgramToMemory 8 5 8
       = (map Stdout (spec_clientCommands (clientProgram trackNumByte) 8), Ok tt)
       /\ byteValue trackNumByte = 5
       /\ clientProgram trackNumByte !! trackParameterOffset = Some trackNumByte
       /\ (forall other i, i <> trackParameterOffset ->
             clientProgram trackNumByte !! i = clientProgram other !! i)
       /\ len (clientProgram trackNumByte) = 52
       /\ concat (spec_clientPayloads (clientProgram trackNumByte) 8)
          = clientProgram trackNumByte.
Proof.
  assert (H1 : 0 <= 5 <= 34) by lia.
  assert (H2 : 0 < 8 <= max_int) by (rewrite max_int_val; lia).
  assert (H3 : (segmentCount 52 8 < 8)%nat) by (vm_compute; lia).
  split; [repeat split; assumption || lia|].
  exact (client_program_loader_output 5 8 8 H1 H2 H3).
Defined.

Example client_program_track_5 :
  stdoutOf (fst (writeCommandsToLoadRWTSClientProgramToMemory 8 5 8))
  = map (fun body => (generateLineStartPad ++ body ++ CR)%string)
      [ "C00:A9 0C A0 1C 20 D9 03 B0"; "C08:12 A9 0F CD 21 0C F0 0A";
        "C10:EE 21 0C EE 25 0C F0 E8"; "C18:D0 E6 60 00 01 60 01 00";
        "C20:05 00 30 0C 00 20 00 00"; "C28:02 00 00 60 01 00 00 00";
        "C30:00 01 EF D8" ]%string.
Proof. vm_compute. reflexivity. Qed.

(** ** Lines *)

(** C9: every line the encoder (called with the pad, as all its callers
    do), the track loader, the client program loader and the executor write
    to standard output starts with the pad of 16 spaces and ends in one
    carriage return, with no carriage return or line feed before it. *)
Theorem output_lines_padded_and_cr_terminated :
  generateLineStartPad = "                "%string
  /\ String.length generateLineStartPad = 16%nat
  /\ (forall src addr pos count,
        Forall wellFormedLine
          (stdoutOf (fst (writeCommandsToFillAppleMemorySegment
                            src generateLineStartPad addr pos count))))
  /\ (forall fuel img t s,
        Forall wellFormedLine
          (stdoutOf (fst (writeCommandsToLoadDiskTrackToMemory fuel img t s))))
  /\ (forall fuel t s,
        Forall wellFormedLine
          (stdoutOf (fst (writeCommandsToLoadRWTSClientProgramToMemory fuel t s))))
  /\ (forall t, Forall wellFormedLine (stdoutOf (fst (executeClient t)))).
Proof.
  split; [reflexivity|]. split; [reflexivity|].
  split; [|split; [|split]].
  - intros. apply fill_respects.
  - intros. apply (loadTrack_respects fuel img t s).
  - intros. apply (loadClient_respects fuel t s).
  - intros. apply (executeClient_respects t).
Qed.

Example executeClient_5 :
  executeClient 5
  = ([Stderr ("executing binary client program to write track 5" ++ LF)%string;
      Stdout (generateLineStartPad ++ "C00G" ++ CR)%string], Ok tt).
Proof. reflexivity. Qed.
